(** * openwebvulndb-tools: SecurityFocus tab parsers and the file storage

    A shallow embedding of [openwebvulndb/common/securityfocus/parsers.py]
    and [openwebvulndb/common/storage.py], with the properties their
    specification states about them.

    Conventions.
    - A Python [str] is a list of characters; a character is a code point
      below 256 (Rocq's [ascii]).
    - A Python call that may raise is a [result]: [Return v] or [Raise e].
    - [None] is Rocq's [None]; a function returning [str] or [None] returns
      [option str]. *)

From Stdlib Require Import List Ascii String Bool Arith Lia.
From stdpp Require Import gmap strings.
Import ListNotations.
Local Open Scope list_scope.
Local Open Scope bool_scope.

(** ** Python strings *)

Definition str := list ascii.

(** A string literal of the source. *)
Definition lit (s : string) : str := list_ascii_of_string s.

(** [Py_UNICODE_ISSPACE] on the code points below 256: the characters that
    [str.strip()] removes and that [\s] matches in a [str] pattern. *)
Definition isspace (c : ascii) : bool :=
  let n := nat_of_ascii c in
  ((9 <=? n) && (n <=? 13)) || ((28 <=? n) && (n <=? 32))
  || (n =? 133) || (n =? 160).

Definition SPACE : ascii := " "%char.
Definition LF : ascii := ascii_of_nat 10.
Definition TAB : ascii := ascii_of_nat 9.

(** [s.lstrip(chars)]: the characters to remove are those of a class. *)
Fixpoint lstrip_by (p : ascii -> bool) (s : str) : str :=
  match s with
  | [] => []
  | c :: s' => if p c then lstrip_by p s' else s
  end.

(** [s.rstrip(chars)] *)
Fixpoint rstrip_by (p : ascii -> bool) (s : str) : str :=
  match s with
  | [] => []
  | c :: s' =>
      match rstrip_by p s' with
      | [] => if p c then [] else [c]
      | r => c :: r
      end
  end.

(** [s.strip(chars)] *)
Definition strip_by (p : ascii -> bool) (s : str) : str :=
  rstrip_by p (lstrip_by p s).

(** [s.strip()]: without an argument, whitespace is removed. *)
Definition strip (s : str) : str := strip_by isspace s.

(** [s.startswith(p)] *)
Fixpoint startswith (p s : str) : bool :=
  match p, s with
  | [], _ => true
  | _ :: _, [] => false
  | a :: p', b :: s' => Ascii.eqb a b && startswith p' s'
  end.

(** [needle in hay] on strings *)
Fixpoint contains (needle hay : str) : bool :=
  startswith needle hay
  || match hay with
     | [] => false
     | _ :: hay' => contains needle hay'
     end.

(** ** [strip_whitespaces] *)

Definition starts_with_space (s : str) : bool :=
  match s with
  | c :: _ => isspace c
  | [] => false
  end.

(** [re.sub('\s\s+', ' ', string)]: the string is scanned from the left;
    where two whitespace characters follow each other a match starts, it
    takes the whole run (the [+] is greedy), one space is written for it and
    the scan goes on behind the run.  Every other character is copied.
    [in_match] says that the scan is inside a run whose space is written. *)
Fixpoint re_sub_from (in_match : bool) (s : str) : str :=
  match s with
  | [] => []
  | c :: s' =>
      if isspace c then
        if in_match then re_sub_from true s'
        else if starts_with_space s' then SPACE :: re_sub_from true s'
        else c :: re_sub_from false s'
      else c :: re_sub_from false s'
  end.

Definition re_sub_spaces (s : str) : str := re_sub_from false s.

Definition strip_whitespaces (s : str) : str :=
  let stripped_string := re_sub_spaces s in
  let stripped_string := strip stripped_string in
  stripped_string.

(** The maximal runs of a string: neighbouring characters are in the same
    run when both are whitespace or both are not. *)
Fixpoint runs (s : str) : list str :=
  match s with
  | [] => []
  | c :: s' =>
      match runs s' with
      | (d :: r) :: rs =>
          if Bool.eqb (isspace c) (isspace d) then (c :: d :: r) :: rs
          else [c] :: (d :: r) :: rs
      | _ => [[c]]
      end
  end.

(** What the code does with a run: a whitespace run of two or more
    characters becomes one space, every other run is kept. *)
Definition collapse_long_run (r : str) : str :=
  match r with
  | c :: _ :: _ => if isspace c then [SPACE] else r
  | _ => r
  end.

(** What the specification's sentence says: any whitespace run becomes one
    space. *)
Definition collapse_any_run (r : str) : str :=
  match r with
  | c :: _ => if isspace c then [SPACE] else r
  | [] => r
  end.

(** The normalisation as the specification words it. *)
Definition normalize_as_specified (s : str) : str :=
  strip (concat (map collapse_any_run (runs s))).

Definition no_space_pair_b (c : ascii) (s : str) : bool :=
  negb (isspace c && starts_with_space s).

(** No two whitespace characters follow each other. *)
Fixpoint no_space_pair (s : str) : bool :=
  match s with
  | [] => true
  | c :: s' => no_space_pair_b c s' && no_space_pair s'
  end.

(** ** Results and exceptions *)

(** The [errors] value of the schema library: a dictionary from field names
    to messages.  It is true in a condition when it is not empty. *)
Definition errors := list (str * list str).

Definition truthy (e : errors) : bool :=
  match e with
  | [] => false
  | _ :: _ => true
  end.

(** Why [datetime.strptime] raised its [ValueError]. *)
Inductive value_error :=
| does_not_match (data_string format : str)
| unconverted_data_remains (rest : str)
| bad_directive (format : str)
| out_of_range.

(** The exceptions.  [Exception_] is the plain [Exception] that [_read]
    raises with its arguments.  [ExtractionError] is the error that the
    specification names for a field that cannot be produced; no function of
    the source raises it. *)
Inductive exn :=
| AttributeError
| IndexError
| TypeError
| ValueError (why : value_error)
| JSONDecodeError
| FileNotFoundError
| IsADirectoryError
| NotADirectoryError
| OSError (errno : nat)
| Exception_ (args : list str) (errs : errors)
| ExtractionError (field : str).

Inductive result (A : Type) :=
| Return (a : A)
| Raise (e : exn).
Arguments Return {A} a.
Arguments Raise {A} e.

Definition bind {A B} (r : result A) (k : A -> result B) : result B :=
  match r with
  | Return a => k a
  | Raise e => Raise e
  end.

Notation "'let*' x ':=' r 'in' k" := (bind r (fun x => k))
  (at level 10, x name, r at level 100, k at level 200).

(** [l[0]] *)
Definition index0 {A} (l : list A) : result A :=
  match l with
  | x :: _ => Return x
  | [] => Raise IndexError
  end.

(** [a + b] where each operand is a [str] or [None]. *)
Definition add_str (a b : option str) : result str :=
  match a, b with
  | Some x, Some y => Return (x ++ y)
  | _, _ => Raise TypeError
  end.

Definition str_eqb (a b : str) : bool := bool_decide (a = b).

(** ** The document tree of lxml

    An element has a tag, attributes, the text before its first child, its
    children, and the text behind its end tag (its tail).  A comment is a
    node whose tag is no tag name, it behaves here like an element with a
    tag that no query asks for. *)
#[local] Unset Elimination Schemes.
Inductive element := Element {
  tag : str;
  attrib : list (str * str);
  text : option str;
  children : list element;
  tail : option str
}.
#[local] Set Elimination Schemes.

(** Induction on a tree: the property holds for an element when it holds
    for its children. *)
Fixpoint element_ind (P : element -> Prop)
    (step : forall tg at_ tx cs tl, Forall P cs -> P (Element tg at_ tx cs tl))
    (e : element) : P e :=
  match e with
  | Element tg at_ tx cs tl =>
      step tg at_ tx cs tl
           ((fix all (l : list element) : Forall P l :=
               match l with
               | [] => @List.Forall_nil element P
               | c :: l' =>
                   @List.Forall_cons element P c l' (element_ind P step c) (all l')
               end) cs)
  end.

(** [element.get(name)]: the value of an attribute. *)
Fixpoint get_attrib (name : str) (attrs : list (str * str)) : option str :=
  match attrs with
  | [] => None
  | (k, v) :: attrs' => if str_eqb k name then Some v else get_attrib name attrs'
  end.

Definition opt_list {A} (o : option A) : list A :=
  match o with
  | Some a => [a]
  | None => []
  end.

(** The text nodes that are children of an element, in document order: its
    text and the tails of its children. *)
Definition text_children (e : element) : list str :=
  opt_list (text e) ++ flat_map (fun c => opt_list (tail c)) (children e).

(** The elements of a tree in document order, each with its parent. *)
Fixpoint iter_with_parent (parent : option element) (e : element)
  : list (option element * element) :=
  (parent, e) :: flat_map (iter_with_parent (Some e)) (children e).

(** [//*]: every element of the document, in document order. *)
Definition descendants (root : element) : list element :=
  map snd (iter_with_parent None root).

(** [//div[@id="vulnerability"]] *)
Definition is_vulnerability_div (e : element) : bool :=
  str_eqb (tag e) (lit "div")
  && match get_attrib (lit "id") (attrib e) with
     | Some v => str_eqb v (lit "vulnerability")
     | None => false
     end.

Definition xpath_vulnerability_div (root : element) : list element :=
  List.filter is_vulnerability_div (descendants root).

(** [//div[@id="vulnerability"]/ul]: the [ul] children of these sections, in
    document order. *)
Definition xpath_vulnerability_ul (root : element) : list element :=
  flat_map
    (fun pe : option element * element =>
       match fst pe with
       | Some parent =>
           if is_vulnerability_div parent && str_eqb (tag (snd pe)) (lit "ul")
           then [snd pe] else []
       | None => []
       end)
    (iter_with_parent None root).

(** [span[text() = label]]: a [span] one of whose text nodes is the label. *)
Definition is_label_span (label : str) (e : element) : bool :=
  str_eqb (tag e) (lit "span") && existsb (str_eqb label) (text_children e).

(** An element is the row of a label when one of its children (the first
    cell) has such a [span] as a child: the row is the [../..] of the span. *)
Definition has_label_span (label : str) (row : element) : bool :=
  existsb (fun cell => existsb (is_label_span label) (children cell))
          (children row).

(** The number of [td] elements among the first [i] children. *)
Definition td_before (i : nat) (cs : list element) : nat :=
  length (List.filter (fun c => str_eqb (tag c) (lit "td")) (firstn i cs)).

(** A text node with the element it is a child of, and where that element
    sits: its parent and its position among the parent's children. *)
Record text_node := {
  node_value : str;
  node_parent : element;
  node_context : option (element * nat)
}.

Definition text_node_of (ctx : option (element * nat)) (e : element)
    (o : option str) : list text_node :=
  match o with
  | Some s => [{| node_value := s; node_parent := e; node_context := ctx |}]
  | None => []
  end.

(** The text nodes of a tree in document order. *)
Fixpoint text_nodes (ctx : option (element * nat)) (e : element)
  : list text_node :=
  text_node_of ctx e (text e)
  ++ (fix go (i : nat) (cs : list element) : list text_node :=
        match cs with
        | [] => []
        | c :: cs' =>
            text_nodes (Some (e, i)) c ++ text_node_of ctx e (tail c)
            ++ go (S i) cs'
        end) 0 (children e).

(** [td[2]] below the row of a label: the parent of the text node is a
    [td], exactly one [td] comes before it in its row, and the row has the
    label. *)
Definition in_value_cell (label : str) (n : text_node) : bool :=
  match node_context n with
  | Some (row, i) =>
      str_eqb (tag (node_parent n)) (lit "td")
      && (td_before i (children row) =? 1)
      && has_label_span label row
  | None => false
  end.

(** [//span[text() = label]/../../td[2]/text()] *)
Definition xpath_label_value (label : str) (root : element) : list str :=
  map node_value (List.filter (in_value_cell label) (text_nodes None root)).

(** The elements of a tree in document order, each with where it sits: its
    parent and its position among the parent's children. *)
Fixpoint iter_with_position (ctx : option (element * nat)) (e : element)
  : list (option (element * nat) * element) :=
  (ctx, e)
  :: (fix go (i : nat) (cs : list element)
        : list (option (element * nat) * element) :=
        match cs with
        | [] => []
        | c :: cs' => iter_with_position (Some (e, i)) c ++ go (S i) cs'
        end) 0 (children e).

(** The element is the second [td] of the row of a label. *)
Definition is_value_cell (label : str) (ctx : option (element * nat))
    (e : element) : bool :=
  match ctx with
  | Some (row, i) =>
      str_eqb (tag e) (lit "td")
      && (td_before i (children row) =? 1)
      && has_label_span label row
  | None => false
  end.

(** [//span[text() = label]/../../td[2]] *)
Definition xpath_label_cell (label : str) (root : element) : list element :=
  map snd (List.filter (fun pe => is_value_cell label (fst pe) (snd pe))
                       (iter_with_position None root)).

(** ** [ReferenceTabParser] *)

(** The two functions of [urllib.parse] that the parser calls.  Both raise
    [ValueError] on some inputs. *)
Class Urllib := {
  urlparse_netloc : str -> result str;
  urljoin : str -> str -> result str
}.

Record reference := { description : str; url : str }.

Module ReferenceTabParser.
Section WithUrllib.
Context {urllib : Urllib}.

Record t := { html_tree : option element; base_url : option str }.

Definition __init__ (url : option str) : t :=
  {| html_tree := None; base_url := url |}.

Definition tree (self : t) : result element :=
  match html_tree self with
  | Some root => Return root
  | None => Raise AttributeError
  end.

Definition _get_reference_parent_tag (self : t) : result element :=
  let* root := tree self in
  index0 (xpath_vulnerability_ul root).

Definition _is_relative_url (url : str) : result bool :=
  let* netloc := urlparse_netloc url in
  Return (length netloc =? 0).

(** [li.xpath('a/@href')]: the [href] attributes of the [a] children. *)
Definition xpath_a_href (li : element) : list str :=
  flat_map
    (fun c => if str_eqb (tag c) (lit "a")
              then opt_list (get_attrib (lit "href") (attrib c)) else [])
    (children li).

(** The body of the loop of [get_references] for one list item. *)
Definition reference_of_item (self : t) (li : element) : result reference :=
  let* a_tag := index0 (children li) in
  let* description := add_str (text a_tag) (tail a_tag) in
  let* url := index0 (xpath_a_href li) in
  let* relative := _is_relative_url url in
  let* url :=
    match relative, base_url self with
    | true, Some base => urljoin base url
    | _, _ => Return url
    end in
  Return {| description := description; url := url |}.

Fixpoint references_loop (self : t) (items : list element)
    (references_list : list reference) : result (list reference) :=
  match items with
  | [] => Return references_list
  | li :: items' =>
      let* r := reference_of_item self li in
      references_loop self items' (references_list ++ [r])
  end.

Definition get_references (self : t) : result (list reference) :=
  let references_list := [] in
  let* parent_ul_tag := _get_reference_parent_tag self in
  references_loop self (children parent_ul_tag) references_list.

End WithUrllib.
End ReferenceTabParser.

(** ** [DiscussionTabParser], [ExploitTabParser], [SolutionTabParser] *)

Definition is_br (e : element) : bool := str_eqb (tag e) (lit "br").

Module DiscussionTabParser.

Record t := { html_tree : option element }.

Definition tree (self : t) : result element :=
  match html_tree self with
  | Some root => Return root
  | None => Raise AttributeError
  end.

Fixpoint discussion_loop (tags : list element) (discussion_text : str) : str :=
  match tags with
  | [] => discussion_text
  | br_tag :: tags' =>
      if is_br br_tag then
        match tail br_tag with
        | Some br_text => discussion_loop tags' (discussion_text ++ br_text)
        | None => discussion_loop tags' discussion_text
        end
      else discussion_loop tags' discussion_text
  end.

Definition get_discussion (self : t) : result str :=
  let* root := tree self in
  let* div_tag := index0 (xpath_vulnerability_div root) in
  let discussion_text := discussion_loop (children div_tag) [] in
  Return (strip_whitespaces discussion_text).

End DiscussionTabParser.

(** The loop that [get_exploit_description] and [get_solution] share but
    for the phrase: [None] as soon as a tail has the phrase. *)
Fixpoint description_loop (phrase : str) (tags : list element)
    (description : str) : option str :=
  match tags with
  | [] => Some (strip_whitespaces description)
  | br_tag :: tags' =>
      if is_br br_tag then
        match tail br_tag with
        | Some text =>
            if contains phrase text then None
            else description_loop phrase tags' (description ++ text)
        | None => description_loop phrase tags' description
        end
      else description_loop phrase tags' description
  end.

Module ExploitTabParser.

Record t := { html_tree : option element }.

Definition tree (self : t) : result element :=
  match html_tree self with
  | Some root => Return root
  | None => Raise AttributeError
  end.

Definition no_exploit_phrase : str :=
  lit "Currently, we are not aware of any working exploits.".

Definition get_exploit_description (self : t) : result (option str) :=
  let* root := tree self in
  let* div_tag := index0 (xpath_vulnerability_div root) in
  Return (description_loop no_exploit_phrase (children div_tag) []).

End ExploitTabParser.

Module SolutionTabParser.

Record t := { html_tree : option element }.

Definition tree (self : t) : result element :=
  match html_tree self with
  | Some root => Return root
  | None => Raise AttributeError
  end.

Definition no_solution_phrase : str :=
  lit "Currently we are not aware of any".

Definition get_solution (self : t) : result (option str) :=
  let* root := tree self in
  let* div_tag := index0 (xpath_vulnerability_div root) in
  Return (description_loop no_solution_phrase (children div_tag) []).

End SolutionTabParser.

(** [t] has [p] as a substring. *)
Definition is_substring (p t : str) : Prop :=
  exists pre post, t = pre ++ p ++ post.

(** ** [datetime.strptime]

    The standard library parses a date in three steps: the format becomes a
    regular expression with one named group per directive, the expression
    is matched at the start of the text without regard to case, and the
    groups become the fields of the date.  The model has the directives of
    [securityfocus_date_format], with the names of the C locale. *)

Record datetime := {
  year : nat; month : nat; day : nat; hour : nat; minute : nat
}.

Definition securityfocus_date_format : str := lit "%b %d %Y %I:%M%p".

Definition code (c : ascii) : nat := nat_of_ascii c.

(** [c.lower()] for a code point below 256. *)
Definition lower_char (c : ascii) : ascii :=
  let n := code c in
  if ((65 <=? n) && (n <=? 90))
     || ((192 <=? n) && (n <=? 222) && negb (n =? 215))
  then ascii_of_nat (n + 32) else c.

(** [s.lower()]: on code points below 256 it works character by
    character, and the result has the length of the string. *)
Definition lower (s : str) : str := map lower_char s.

Definition isdigit (c : ascii) : bool := (48 <=? code c) && (code c <=? 57).

Definition in_range (lo hi : ascii) (c : ascii) : bool :=
  (code lo <=? code c) && (code c <=? code hi).

(** A regular expression over characters; [Plus] is the greedy [+] on a
    class of characters. *)
Inductive regex :=
| Chr (p : ascii -> bool)
| Seq (a b : regex)
| Alt (a b : regex)
| Plus (p : ascii -> bool).

Fixpoint take_while (p : ascii -> bool) (s : str) : str :=
  match s with
  | c :: s' => if p c then c :: take_while p s' else []
  | [] => []
  end.

(** The ways to match an expression at the start of a text, the one the
    backtracking matcher prefers first: what was matched, and the rest. *)
Fixpoint re_match (r : regex) (s : str) : list (str * str) :=
  match r with
  | Chr p =>
      match s with
      | c :: s' => if p c then [([c], s')] else []
      | [] => []
      end
  | Seq a b =>
      flat_map (fun m1 : str * str =>
                  map (fun m2 : str * str => (fst m1 ++ fst m2, snd m2))
                      (re_match b (snd m1)))
               (re_match a s)
  | Alt a b => re_match a s ++ re_match b s
  | Plus p =>
      map (fun k => (firstn k s, skipn k s))
          (rev (seq 1 (length (take_while p s))))
  end.

(** A character of the pattern, under [IGNORECASE]. *)
Definition chr_ci (c : ascii) : regex :=
  Chr (fun x => Ascii.eqb (lower_char x) (lower_char c)).

Fixpoint word_ci (c : ascii) (w : str) : regex :=
  match w with
  | [] => chr_ci c
  | d :: w' => Seq (chr_ci c) (word_ci d w')
  end.

Definition word (w : string) : regex :=
  match lit w with
  | c :: w' => word_ci c w'
  | [] => Plus (fun _ => false)
  end.

Fixpoint alternatives (r : regex) (rs : list regex) : regex :=
  match rs with
  | [] => r
  | r' :: rs' => Alt r (alternatives r' rs')
  end.

Definition a_month : list string :=
  ["jan"; "feb"; "mar"; "apr"; "may"; "jun";
   "jul"; "aug"; "sep"; "oct"; "nov"; "dec"]%string.

Inductive directive := D_b | D_d | D_Y | D_I | D_M | D_p.

Definition digit : regex := Chr isdigit.

Definition between (lo hi : string) : regex :=
  match lit lo, lit hi with
  | [l], [h] => Chr (in_range l h)
  | _, _ => Plus (fun _ => false)
  end.

(** The expression of a directive, as the table of [_strptime] has it. *)
Definition directive_regex (d : directive) : regex :=
  match d with
  | D_b => alternatives (word "jan") (map word (List.tl a_month))
  | D_d => alternatives (Seq (word "3") (between "0" "1"))
             [Seq (between "1" "2") digit; Seq (word "0") (between "1" "9");
              between "1" "9"; Seq (word " ") (between "1" "9")]
  | D_Y => Seq digit (Seq digit (Seq digit digit))
  | D_I => alternatives (Seq (word "1") (between "0" "2"))
             [Seq (word "0") (between "1" "9"); between "1" "9"]
  | D_M => Alt (Seq (between "0" "5") digit) digit
  | D_p => Alt (word "am") (word "pm")
  end.

Inductive token :=
| Group (d : directive)
| Pattern (r : regex).

Definition directive_of (c : ascii) : option directive :=
  if Ascii.eqb c "b" then Some D_b
  else if Ascii.eqb c "d" then Some D_d
  else if Ascii.eqb c "Y" then Some D_Y
  else if Ascii.eqb c "I" then Some D_I
  else if Ascii.eqb c "M" then Some D_M
  else if Ascii.eqb c "p" then Some D_p
  else None.

(** The pattern of a format: a directive is a group, a run of whitespace
    is [\s+], any other character stands for itself.  [None] for a directive
    that the table does not have. *)
Fixpoint pattern (after_space : bool) (format : str) : option (list token) :=
  match format with
  | [] => Some []
  | c :: format' =>
      if Ascii.eqb c "%" then
        match format' with
        | d :: format'' =>
            match directive_of d, pattern false format'' with
            | Some g, Some ts => Some (Group g :: ts)
            | _, _ => None
            end
        | [] => None
        end
      else if isspace c then
        match pattern true format' with
        | Some ts => Some (if after_space then ts else Pattern (Plus isspace) :: ts)
        | None => None
        end
      else
        match pattern false format' with
        | Some ts => Some (Pattern (chr_ci c) :: ts)
        | None => None
        end
  end.

(** Matching the tokens one after the other; a group records its text. *)
Fixpoint match_tokens (ts : list token) (s : str)
  : list (list (directive * str) * str) :=
  match ts with
  | [] => [([], s)]
  | Pattern r :: ts' =>
      flat_map (fun m : str * str => match_tokens ts' (snd m)) (re_match r s)
  | Group d :: ts' =>
      flat_map (fun m : str * str =>
                  map (fun f : list (directive * str) * str =>
                         ((d, fst m) :: fst f, snd f))
                      (match_tokens ts' (snd m)))
               (re_match (directive_regex d) s)
  end.

Definition directive_eqb (a b : directive) : bool :=
  match a, b with
  | D_b, D_b | D_d, D_d | D_Y, D_Y | D_I, D_I | D_M, D_M | D_p, D_p => true
  | _, _ => false
  end.

Fixpoint found (d : directive) (groups : list (directive * str)) : option str :=
  match groups with
  | [] => None
  | (d', v) :: groups' => if directive_eqb d d' then Some v else found d groups'
  end.

(** [int(s)] for a text of digits, with a blank before them or not. *)
Definition int_of (s : str) : nat :=
  fold_left (fun n c => if isdigit c then 10 * n + (code c - 48) else n) s 0.

Fixpoint index_of (w : str) (l : list string) (i : nat) : option nat :=
  match l with
  | [] => None
  | x :: l' => if str_eqb w (lit x) then Some i else index_of w l' (S i)
  end.

Definition is_leap (y : nat) : bool :=
  (y mod 4 =? 0) && (negb (y mod 100 =? 0) || (y mod 400 =? 0)).

Definition days_in_month (y m : nat) : nat :=
  match m with
  | 2 => if is_leap y then 29 else 28
  | 4 | 6 | 9 | 11 => 30
  | _ => 31
  end.

(** The fields of the date from the groups that were found. *)
Definition date_of_groups (groups : list (directive * str)) : result datetime :=
  let year := match found D_Y groups with Some v => int_of v | None => 1900 end in
  let month :=
    match found D_b groups with
    | Some v => index_of (lower v) a_month 1
    | None => Some 1
    end in
  let day := match found D_d groups with Some v => int_of v | None => 1 end in
  let hour := match found D_I groups with Some v => int_of v | None => 0 end in
  let ampm := match found D_p groups with Some v => lower v | None => [] end in
  let hour :=
    if str_eqb ampm [] || str_eqb ampm (lit "am")
    then (if hour =? 12 then 0 else hour)
    else if str_eqb ampm (lit "pm")
    then (if hour =? 12 then hour else hour + 12)
    else hour in
  let minute := match found D_M groups with Some v => int_of v | None => 0 end in
  match month with
  | None => Raise (ValueError out_of_range)
  | Some month =>
      if (1 <=? year) && (1 <=? day)
         && (day <=? days_in_month year month)
      then Return {| year := year; month := month; day := day;
                     hour := hour; minute := minute |}
      else Raise (ValueError out_of_range)
  end.

(** [datetime.strptime(data_string, format)]; the text may be [None]. *)
Definition strptime (data_string : option str) (format : str) : result datetime :=
  match data_string with
  | None => Raise TypeError
  | Some data =>
      match pattern false format with
      | None => Raise (ValueError (bad_directive format))
      | Some ts =>
          match match_tokens ts data with
          | [] => Raise (ValueError (does_not_match data format))
          | (groups, rest) :: _ =>
              match rest with
              | [] => date_of_groups groups
              | _ :: _ => Raise (ValueError (unconverted_data_remains rest))
              end
          end
      end
  end.

(** ** [InfoTabParser] *)

Module InfoTabParser.

Record t := { html_tree : option element }.

Definition __init__ : t := {| html_tree := None |}.

(** [self.html_tree.xpath(...)]: the attribute is [None] until a page is
    set. *)
Definition tree (self : t) : result element :=
  match html_tree self with
  | Some root => Return root
  | None => Raise AttributeError
  end.

Definition _parse_element (self : t) (element_name : str)
  : result (option str) :=
  let* root := tree self in
  let element_value := xpath_label_value element_name root in
  let* first := index0 element_value in
  let element_value := strip first in
  if length element_value =? 0 then Return None
  else Return (Some element_value).

Definition get_bugtraq_id (self : t) := _parse_element self (lit "Bugtraq ID:").
Definition get_vuln_class (self : t) := _parse_element self (lit "Class:").
Definition is_vuln_remote (self : t) := _parse_element self (lit "Remote:").
Definition is_vuln_local (self : t) := _parse_element self (lit "Local:").
Definition get_credit (self : t) := _parse_element self (lit "Credit:").

Definition get_publication_date (self : t) : result datetime :=
  let* string_date := _parse_element self (lit "Published:") in
  let* date := strptime string_date securityfocus_date_format in
  Return date.

Definition get_last_update_date (self : t) : result datetime :=
  let* string_date := _parse_element self (lit "Updated:") in
  let* date := strptime string_date securityfocus_date_format in
  Return date.

(** [td_element.text.strip()]: the text may be [None]. *)
Definition strip_text (o : option str) : result str :=
  match o with
  | Some t => Return (strip t)
  | None => Raise AttributeError
  end.

(** The body of the loop of [get_cve_id]: the tail of a child of the cell,
    when it is not [None] and not blank, goes into the set. *)
Definition add_cve (cve_ids : gset str) (br_tag : element) : gset str :=
  match tail br_tag with
  | Some cve =>
      let cve := strip cve in
      if negb (length cve =? 0) then cve_ids ∪ {[cve]} else cve_ids
  | None => cve_ids
  end.

Definition get_cve_id (self : t) : result (list str) :=
  let* root := tree self in
  let* td_element := index0 (xpath_label_cell (lit "CVE:") root) in
  let* cve := strip_text (text td_element) in
  if length cve =? 0 then Return []
  else
    let cve_ids := {[cve]} in
    let cve_ids := fold_left add_cve (children td_element) cve_ids in
    Return (elements cve_ids).

Definition _get_version_list (self : t) (get_vulnerable_versions : bool)
  : result (list str) :=
  let* root := tree self in
  let versions_list :=
    if get_vulnerable_versions
    then xpath_label_value (lit "Vulnerable:") root
    else xpath_label_value (lit "Not Vulnerable:") root in
  let versions_list :=
    map strip (List.filter (fun version => 0 <? length (strip version))
                           versions_list) in
  Return versions_list.

Definition get_vulnerable_versions (self : t) := _get_version_list self true.

Definition get_not_vulnerable_versions (self : t) :=
  _get_version_list self false.

End InfoTabParser.

(** ** [os.path]

    Paths are strings; two paths are the same file when they are the same
    string. *)

Definition SEP : ascii := "/"%char.
Definition is_sep (c : ascii) : bool := Ascii.eqb c SEP.

Definition endswith_sep (p : str) : bool :=
  match rev p with
  | c :: _ => is_sep c
  | [] => false
  end.

(** One round of the loop of [posixpath.join]. *)
Definition join2 (path b : str) : str :=
  if startswith [SEP] b then b
  else if (length path =? 0) || endswith_sep path then path ++ b
  else path ++ [SEP] ++ b.

(** [join(a, *p)] *)
Definition join (a : str) (p : list str) : str := fold_left join2 p a.

(** [p[:p.rfind('/') + 1]] *)
Fixpoint head_of_path (p : str) : str :=
  match p with
  | [] => []
  | c :: p' =>
      match head_of_path p' with
      | [] => if is_sep c then [c] else []
      | h => c :: h
      end
  end.

(** [posixpath.dirname] *)
Definition dirname (p : str) : str :=
  let head := head_of_path p in
  if negb (length head =? 0) && negb (forallb is_sep head)
  then rstrip_by is_sep head else head.

(** ** The world of a [Storage] instance *)

Inductive fnode :=
| File (content : str)
| Dir.

Inductive log_level := CRITICAL.

Record log_record := {
  level : log_level;
  message : str;
  message_args : list str
}.

(** A call of [makedirs], as the instance made it: for which relative path,
    with which arguments, and whether it created the directory or raised. *)
Record makedirs_call := {
  call_relative : str;
  call_path : str;
  call_mode : nat;
  call_exist_ok : bool;
  call_done : bool
}.

(** The set [self.known] of the instance, the files below the base path,
    the records that the logger got, and the calls of [makedirs] so far. *)
Record state := {
  known : gset str;
  files : gmap str fnode;
  log : list log_record;
  trace : list makedirs_call
}.

(** What the operating system answers to the calls that change the disk:
    an error number when the call fails. *)
Record io_env := {
  makedirs_errno : option nat;
  open_errno : option nat;
  write_errno : option nat
}.

Definition io_ok : io_env :=
  {| makedirs_errno := None; open_errno := None; write_errno := None |}.

(** A method of the instance: it may change the state before it raises. *)
Definition M (A : Type) : Type := state -> result A * state.

Definition ret {A} (a : A) : M A := fun st => (Return a, st).
Definition raise {A} (e : exn) : M A := fun st => (Raise e, st).

Definition bindM {A B} (m : M A) (k : A -> M B) : M B :=
  fun st =>
    match m st with
    | (Return a, st') => k a st'
    | (Raise e, st') => (Raise e, st')
    end.

Notation "'let+' x ':=' m 'in' k" := (bindM m (fun x => k))
  (at level 10, x name, m at level 100, k at level 200).

Definition set_known (f : gset str -> gset str) : M unit :=
  fun st => (Return tt, {| known := f (known st); files := files st;
                           log := log st; trace := trace st |}).

Definition set_files (f : gmap str fnode -> gmap str fnode) : M unit :=
  fun st => (Return tt, {| known := known st; files := f (files st);
                           log := log st; trace := trace st |}).

Definition add_log (r : log_record) : M unit :=
  fun st => (Return tt, {| known := known st; files := files st;
                           log := log st ++ [r]; trace := trace st |}).

Definition add_trace (c : makedirs_call) : M unit :=
  fun st => (Return tt, {| known := known st; files := files st;
                           log := log st; trace := trace st ++ [c] |}).

(** The directories that [makedirs(path)] makes sure of: the path and what
    stands before each of its separators. *)
Fixpoint ancestors (before p : str) : list str :=
  match p with
  | [] => [before]
  | c :: p' =>
      (if is_sep c && negb (length before =? 0) then [before] else [])
      ++ ancestors (before ++ [c]) p'
  end.

Definition make_dir (files : gmap str fnode) (d : str) : gmap str fnode :=
  match files !! d with
  | Some _ => files
  | None => <[d := Dir]> files
  end.

(** [makedirs(path, mode=0o755, exist_ok=True)] for a relative path. *)
Definition makedirs (io : io_env) (relative path : str) : M unit :=
  let call ok := {| call_relative := relative; call_path := path;
                    call_mode := 493; call_exist_ok := true;
                    call_done := ok |} in
  match makedirs_errno io with
  | Some errno =>
      let+ _ := add_trace (call false) in
      raise (OSError errno)
  | None =>
      let+ _ := add_trace (call true) in
      set_files (fun fs => fold_left make_dir (ancestors [] path) fs)
  end.

(** [open(path, 'r')] and [fp.read()].  The disk has one entry for each
    path string: a string that it does not have is a file that is not
    there.  It does not know that two strings can name one file, nor what
    the operating system answers for a path below a file; the properties
    of the reads that could depend on it take the outcome of [open] as
    given. *)
Definition read_file (path : str) : M str :=
  fun st =>
    match files st !! path with
    | Some (File content) => (Return content, st)
    | Some Dir => (Raise IsADirectoryError, st)
    | None => (Raise FileNotFoundError, st)
    end.

(** [open(path, mode)] for writing: with ['w'] the file is made or emptied,
    with ['a+'] it is made when there is none. *)
Definition open_for_writing (io : io_env) (truncate : bool) (path : str)
  : M unit :=
  fun st =>
    match files st !! path, open_errno io with
    | Some Dir, _ => (Raise IsADirectoryError, st)
    | _, Some errno => (Raise (OSError errno), st)
    | Some (File content), None =>
        set_files (fun fs => <[path := File (if truncate then [] else content)]> fs) st
    | None, None => set_files (fun fs => <[path := File []]> fs) st
    end.

(** [fp.write(data)] at the end of the file. *)
Definition write_file (io : io_env) (path data : str) : M unit :=
  match write_errno io with
  | Some errno => raise (OSError errno)
  | None =>
      set_files (fun fs =>
                   match fs !! path with
                   | Some (File content) => <[path := File (content ++ data)]> fs
                   | _ => <[path := File data]> fs
                   end)
  end.

(** An entry of [scandir]. *)
Record dir_entry := { name : str; is_dir : bool }.

(** The name of a path that lies directly in a directory. *)
Fixpoint name_under (prefix path : str) : option str :=
  match prefix, path with
  | [], [] => None
  | [], _ :: _ => if existsb is_sep path then None else Some path
  | _ :: _, [] => None
  | a :: prefix', b :: path' =>
      if Ascii.eqb a b then name_under prefix' path' else None
  end.

Definition entries_of (files : gmap str fnode) (directory : str)
  : list dir_entry :=
  let prefix :=
    if endswith_sep directory then directory else directory ++ [SEP] in
  flat_map
    (fun kv : str * fnode =>
       match name_under prefix (fst kv) with
       | Some n =>
           [{| name := n;
               is_dir := match snd kv with Dir => true | File _ => false end |}]
       | None => []
       end)
    (map_to_list files).

(** [scandir(path)]: the entries of a directory, in the order of the
    operating system.  As for [read_file], the directory is looked up by
    its path string; the properties of the listings take the outcome of
    [scandir] as given. *)
Definition scandir (path : str) : M (list dir_entry) :=
  fun st =>
    match files st !! path with
    | Some Dir => (Return (entries_of (files st) path), st)
    | Some (File _) => (Raise NotADirectoryError, st)
    | None => (Raise FileNotFoundError, st)
    end.

(** ** Files of lines *)

Definition CR : ascii := ascii_of_nat 13.

(** What a file opened for reading in text mode gives for its content:
    a carriage return, with the line feed behind it if there is one,
    becomes a line feed. *)
Fixpoint universal_newlines (s : str) : str :=
  match s with
  | [] => []
  | c :: s' =>
      if Ascii.eqb c CR then
        LF :: match s' with
              | d :: s'' =>
                  if Ascii.eqb d LF then universal_newlines s''
                  else universal_newlines s'
              | [] => []
              end
      else c :: universal_newlines s'
  end.

(** [fp.readlines()] on a text: the lines, each with the line feed that
    ends it; the last line has none when the text does not end with one. *)
Fixpoint readlines (s : str) : list str :=
  match s with
  | [] => []
  | c :: s' =>
      if Ascii.eqb c LF then [c] :: readlines s'
      else match readlines s' with
           | [] => [[c]]
           | line :: lines => (c :: line) :: lines
           end
  end.

(** ** The schemas

    What the storage asks of the schema library: [serialize(schema, item)]
    gives a text and the errors, [schema.loads(text)] gives the item and the
    errors, or raises [JSONDecodeError] for a text that is no JSON. *)
Class Schema (A : Type) := {
  serialize : A -> str * errors;
  loads : str -> result (A * errors)
}.

(** The items that are stored: each has a key, a list of vulnerabilities
    has a producer as well. *)
Class Items := {
  Meta : Type;
  VulnerabilityList : Type;
  VersionList : Type;
  meta_key : Meta -> str;
  vulnerabilities_key : VulnerabilityList -> str;
  producer : VulnerabilityList -> str;
  versions_key : VersionList -> str;
  MetaSchema :: Schema Meta;
  VulnerabilityListSchema :: Schema VulnerabilityList;
  VersionListSchema :: Schema VersionList
}.

(** ** The pattern of [list_vulnerabilities] *)

(** [Py_UNICODE_ISALNUM] on the code points below 256, and the underscore:
    the characters that [\w] matches in a [str] pattern. *)
Definition isword (c : ascii) : bool :=
  let n := code c in
  ((48 <=? n) && (n <=? 57)) || ((65 <=? n) && (n <=? 90))
  || ((97 <=? n) && (n <=? 122)) || (n =? 95)
  || (n =? 170) || (n =? 178) || (n =? 179) || (n =? 181)
  || ((185 <=? n) && (n <=? 186)) || ((188 <=? n) && (n <=? 190))
  || ((192 <=? n) && (n <=? 214)) || ((216 <=? n) && (n <=? 246))
  || ((248 <=? n) && (n <=? 255)).

(** [re.compile(r'^vuln-(\w+)\.json$').match(name)], the text of group 1
    when the name matches.  [\w+] takes every word character that follows
    the dash, and [$] matches at the end of the name and also before a
    newline that ends it. *)
Definition name_format_match (name : str) : option str :=
  if startswith (lit "vuln-") name then
    let rest := skipn 5 name in
    let group1 := take_while isword rest in
    let after := skipn (length group1) rest in
    if negb (length group1 =? 0)
       && (str_eqb after (lit ".json") || str_eqb after (lit ".json" ++ [LF]))
    then Some group1 else None
  else None.

(** The names that the specification describes: [vuln-<word>.json]. *)
Definition is_vuln_word_json (name : str) (word : str) : Prop :=
  name = lit "vuln-" ++ word ++ lit ".json"
  /\ word <> [] /\ forallb isword word = true.

(** ** [Storage] *)

Module Storage.
Section WithItems.
Context {items : Items}.
Variable base_path : str.

(** A new instance knows no directory; the disk is what it is. *)
Definition __init__ (disk : gmap str fnode) : state :=
  {| known := ∅; files := disk; log := []; trace := [] |}.

Definition _path (args : list str) : str := join base_path args.

Definition _prepare_path (io : io_env) (relative : str) : M unit :=
  fun st =>
    if bool_decide (relative ∉ known st) then
      (let+ _ := makedirs io relative (_path [relative]) in
       set_known (fun known => known ∪ {[relative]})) st
    else (Return tt, st).

Definition _write {A} (schema : Schema A) (item_key : A -> str) (io : io_env)
    (item : A) (args : list str) : M unit :=
  let (data, errors) := @serialize A schema item in
  let+ _ := _prepare_path io (item_key item) in
  let path := _path (item_key item :: args) in
  let+ _ := open_for_writing io true path in
  write_file io path data.

Definition _read {A} (schema : Schema A) (args : list str) : M (option A) :=
  let+ text := read_file (_path args) in
  match @loads A schema text with
  | Return (data, errors) =>
      if truthy errors then raise (Exception_ args errors)
      else ret (Some data)
  | Raise JSONDecodeError =>
      let+ _ := add_log {| level := CRITICAL;
                           message := lit "JSON Decode error in %s";
                           message_args := args |} in
      ret None
  | Raise e => raise e
  end.

(** ['vuln-%s.json' % producer.lower()] *)
Definition vuln_file_name (producer : str) : str :=
  lit "vuln-" ++ lower producer ++ lit ".json".

Definition write_meta (io : io_env) (meta : Meta) : M unit :=
  _write MetaSchema meta_key io meta [lit "META.json"].

Definition read_meta (key : str) : M (option Meta) :=
  _read MetaSchema [key; lit "META.json"].

Definition write_vulnerabilities (io : io_env) (vlist : VulnerabilityList)
  : M unit :=
  _write VulnerabilityListSchema vulnerabilities_key io vlist
         [vuln_file_name (producer vlist)].

Definition read_vulnerabilities (key producer : str)
  : M (option VulnerabilityList) :=
  _read VulnerabilityListSchema [key; vuln_file_name producer].

Definition write_versions (io : io_env) (vlist : VersionList) : M unit :=
  _write VersionListSchema versions_key io vlist [lit "versions.json"].

Definition read_versions (key : str) : M (option VersionList) :=
  _read VersionListSchema [key; lit "versions.json"].

(** What a generator gave when it was run to its end: the values it
    yielded, and the exception that ended it, if one did. *)
Definition yielded (A : Type) : Type := list A * option exn.

Fixpoint list_vulnerabilities_loop (key : str) (entries : list dir_entry)
    (st : state) : yielded (option VulnerabilityList) * state :=
  match entries with
  | [] => (([], None), st)
  | entry :: entries' =>
      match name_format_match (name entry) with
      | Some group1 =>
          if negb (is_dir entry) then
            match read_vulnerabilities key group1 st with
            | (Return v, st') =>
                let '((vs, e), st'') :=
                  list_vulnerabilities_loop key entries' st' in
                ((v :: vs, e), st'')
            | (Raise e, st') => (([], Some e), st')
            end
          else list_vulnerabilities_loop key entries' st
      | None => list_vulnerabilities_loop key entries' st
      end
  end.

Definition list_vulnerabilities (key : str) (st : state)
  : yielded (option VulnerabilityList) * state :=
  match scandir (_path [key]) st with
  | (Return entries, st') => list_vulnerabilities_loop key entries st'
  | (Raise e, st') => (([], Some e), st')
  end.

Definition append (io : io_env) (relative content : str) : M unit :=
  let path := dirname relative in
  let+ _ := _prepare_path io path in
  let+ _ := open_for_writing io false (_path [relative]) in
  write_file io (_path [relative])
             (strip_by (Ascii.eqb LF) content ++ [LF]).

(** [list_directories]: the names of the entries that are directories;
    only [FileNotFoundError] is caught. *)
Definition list_directories (path : str) : M (gset str) :=
  fun st =>
    match scandir (_path [path]) st with
    | (Return entries, st') =>
        (Return (list_to_set (map name (List.filter is_dir entries))), st')
    | (Raise FileNotFoundError, st') => (Return ∅, st')
    | (Raise e, st') => (Raise e, st')
    end.

(** [read_lines], run to its end: the lines of the file without their line
    feeds; a file that is not there gives no line and no exception. *)
Definition read_lines (relative : str) (st : state) : yielded str * state :=
  match read_file (_path [relative]) st with
  | (Return content, st') =>
      ((map (strip_by (Ascii.eqb LF)) (readlines (universal_newlines content)),
        None), st')
  | (Raise FileNotFoundError, st') => (([], None), st')
  | (Raise e, st') => (([], Some e), st')
  end.

(** A call of a method of the instance. *)
Inductive call :=
| call_write_meta (meta : Meta)
| call_write_vulnerabilities (vlist : VulnerabilityList)
| call_write_versions (vlist : VersionList)
| call_append (relative content : str)
| call_read_meta (key : str)
| call_read_vulnerabilities (key producer : str)
| call_read_versions (key : str).

Definition forget {A} (m : M A) : M unit := let+ _ := m in ret tt.

Definition perform (c : call) (io : io_env) : M unit :=
  match c with
  | call_write_meta meta => write_meta io meta
  | call_write_vulnerabilities vlist => write_vulnerabilities io vlist
  | call_write_versions vlist => write_versions io vlist
  | call_append relative content => append io relative content
  | call_read_meta key => forget (read_meta key)
  | call_read_vulnerabilities key producer =>
      forget (read_vulnerabilities key producer)
  | call_read_versions key => forget (read_versions key)
  end.

(** The directory that a call prepares, if it prepares one. *)
Definition target (c : call) : option str :=
  match c with
  | call_write_meta meta => Some (meta_key meta)
  | call_write_vulnerabilities vlist => Some (vulnerabilities_key vlist)
  | call_write_versions vlist => Some (versions_key vlist)
  | call_append relative _ => Some (dirname relative)
  | _ => None
  end.

(** The state after a sequence of calls; a call that raises leaves the
    state as it was when it raised, and the next call goes on from it. *)
Fixpoint run (calls : list (call * io_env)) (st : state) : state :=
  match calls with
  | [] => st
  | (c, io) :: calls' => run calls' (snd (perform c io st))
  end.

End WithItems.
End Storage.

(** * What the specification speaks of *)

(** A cut into maximal runs: no run is empty, the characters of a run are
    all whitespace or all not, and neighbouring runs differ in that. *)
Fixpoint maximal_runs (rs : list str) : Prop :=
  match rs with
  | [] => True
  | [] :: _ => False
  | (c :: r) :: rs' =>
      Forall (fun d => isspace d = isspace c) r
      /\ match rs' with
         | (d :: _) :: _ => isspace d = negb (isspace c)
         | _ => True
         end
      /\ maximal_runs rs'
  end.

(** The runs behind a whitespace run at the start, if there is one. *)
Definition behind_space_run (rs : list str) : list str :=
  match rs with
  | (d :: _) :: rs' => if isspace d then rs' else rs
  | _ => rs
  end.

(** The tails of the [br] elements of a list of elements. *)
Definition tails_of_breaks (tags : list element) : list str :=
  flat_map (fun c => if is_br c then opt_list (tail c) else []) tags.

(** The break-tail text fragments of a section: the tails of its [br]
    children. *)
Definition br_tails (div_tag : element) : list str :=
  tails_of_breaks (children div_tag).

(** A break-tail text fragment of the section has the phrase. *)
Definition some_fragment_has (phrase : str) (div_tag : element) : Prop :=
  exists t, In t (br_tails div_tag) /\ is_substring phrase t.

(** No [span] of the document has the label: the row is missing. *)
Definition row_missing (label : str) (root : element) : Prop :=
  forall e, In e (descendants root) -> is_label_span label e = false.

(** A date field: the lookup of the label, then [strptime]. *)
Definition date_field (label : str) (self : InfoTabParser.t) : result datetime :=
  let* string_date := InfoTabParser._parse_element self label in
  let* date := strptime string_date securityfocus_date_format in
  Return date.

(** The state after [logger.critical("JSON Decode error in %s", args)]. *)
Definition logged_decode_error (args : list str) (st : state) : state :=
  {| known := known st; files := files st;
     log := log st ++ [{| level := CRITICAL;
                          message := lit "JSON Decode error in %s";
                          message_args := args |}];
     trace := trace st |}.

(** What a read does with the text of a file: malformed JSON is logged and
    gives no value, errors of the schema raise. *)
Definition read_policy {A} (schema : Schema A) (read : M (option A))
    (args : list str) (st : state) (text : str) : Prop :=
  (@loads A schema text = Raise JSONDecodeError ->
   read st = (Return None, logged_decode_error args st))
  /\ (forall data errs,
        @loads A schema text = Return (data, errs) -> errs <> [] ->
        read st = (Raise (Exception_ args errs), st)).

(** The exceptions of the operating system. *)
Definition is_io_failure (e : exn) : Prop :=
  match e with
  | OSError _ | FileNotFoundError | IsADirectoryError | NotADirectoryError =>
      True
  | _ => False
  end.


(** How often [makedirs] made the directory of a relative path. *)
Definition creations (p : str) (calls : list makedirs_call) : nat :=
  length (List.filter (fun c => call_done c && str_eqb (call_relative c) p)
                      calls).

(** The call of [makedirs] that an instance makes for a relative path. *)
Definition makedirs_call_for (base_path p : str) (io : io_env) : makedirs_call :=
  {| call_relative := p; call_path := join base_path [p]; call_mode := 493;
     call_exist_ok := true;
     call_done := match makedirs_errno io with None => true | Some _ => false end |}.

(** The set [known] has the paths whose directory was made, each made
    once. *)
Definition known_made (st : state) : Prop :=
  forall p, creations p (trace st) = if bool_decide (p ∈ known st) then 1 else 0.

(** The other steps of a method leave the set and the calls alone. *)
Definition same_known_trace (st st' : state) : Prop :=
  known st' = known st /\ trace st' = trace st.

(** The last character of a name is a newline. *)
Definition ends_with_newline (s : str) : bool :=
  match rev s with
  | c :: _ => Ascii.eqb c LF
  | [] => false
  end.

(** The words of the files of a directory: an entry that is no directory
    and whose name is [vuln-<word>.json] gives its word, any other entry
    gives nothing. *)
Inductive matching_words : list dir_entry -> list str -> Prop :=
| matching_nil : matching_words [] []
| matching_file entry entries w ws :
    is_dir entry = false ->
    is_vuln_word_json (name entry) w ->
    matching_words entries ws ->
    matching_words (entry :: entries) (w :: ws)
| matching_other entry entries ws :
    is_dir entry = true \/ (forall w, ~ is_vuln_word_json (name entry) w) ->
    matching_words entries ws ->
    matching_words (entry :: entries) ws.

Section StorageVocabulary.
Context {items : Items}.
Variable base_path : str.

(** A method that prepares a path and then opens and writes a file. *)
Definition prepare_then_write (io : io_env) (p path : str) (truncate : bool)
    (data : str) : M unit :=
  let+ _ := Storage._prepare_path base_path io p in
  let+ _ := open_for_writing io truncate path in
  write_file io path data.

(** Reading the lists of some producers one after the other, up to the
    first read that raises. *)
Fixpoint read_each (key : str) (producers : list str) (st : state)
  : Storage.yielded (option VulnerabilityList) * state :=
  match producers with
  | [] => (([], None), st)
  | w :: producers' =>
      match Storage.read_vulnerabilities base_path key w st with
      | (Return v, st') =>
          let '((vs, e), st'') := read_each key producers' st' in
          ((v :: vs, e), st'')
      | (Raise e, st') => (([], Some e), st')
      end
  end.




End StorageVocabulary.

(** * Samples *)

(** A row of the table of the info tab: a cell with the label in a [span],
    and the cell of the value. *)
Definition info_row (label : string) (value : option str) : element :=
  Element (lit "tr") [] None
    [Element (lit "td") [] None
       [Element (lit "span") [(lit "class", lit "label")] (Some (lit label))
                [] None] None;
     Element (lit "td") [] value [] None] None.

Definition info_page (rows : list element) : element :=
  Element (lit "html") [] None
    [Element (lit "body") [] None
       [Element (lit "div") [(lit "id", lit "vulnerability")] None
          [Element (lit "span") [(lit "class", lit "title")]
                   (Some (lit "WordPress Cross Site Scripting")) [] None;
           Element (lit "table") [] None rows None] None] None] None.

(** A page with a number, a blank class, two dates, and no row for the
    credit. *)
Definition sample_info_page : element :=
  info_page
    [info_row "Bugtraq ID:" (Some ([LF; TAB] ++ lit "92841" ++ [LF]));
     info_row "Class:" (Some [LF; TAB; SPACE]);
     info_row "Published:" (Some (lit " Sep 07 2016 12:00AM" ++ [LF]));
     info_row "Updated:" (Some (lit "Sep 02 2016 08:00PM"))].

(** A page whose date of publication is written in another format. *)
Definition other_date_page : element :=
  info_page [info_row "Published:" (Some (lit "2016-09-07"))].

Definition info_parser (page : element) : InfoTabParser.t :=
  {| InfoTabParser.html_tree := Some page |}.

(** [urllib.parse] on absolute URLs: the network location stands between
    the [//] behind the scheme and the next [/], [?] or [#], and joining an
    absolute URL to a base gives the URL. *)
Definition netloc_of (url : str) : str :=
  let after_scheme :=
    if existsb (Ascii.eqb ":"%char) url
    then List.tl (lstrip_by (fun c => negb (Ascii.eqb c ":"%char)) url)
    else url in
  if startswith (lit "//") after_scheme
  then take_while (fun c => negb (existsb (Ascii.eqb c) (lit "/?#")))
                  (skipn 2 after_scheme)
  else [].

Definition absolute_urllib : Urllib :=
  {| urlparse_netloc := fun url => Return (netloc_of url);
     urljoin := fun base url => Return url |}.

Definition reference_item (href : string) (a_text a_tail : option str)
  : element :=
  Element (lit "li") [] None
    [Element (lit "a") [(lit "href", lit href)] a_text [] a_tail;
     Element (lit "br") [] None [] None] None.

Definition references_page (items : list element) : element :=
  Element (lit "html") [] None
    [Element (lit "body") [] None
       [Element (lit "div") [(lit "id", lit "vulnerability")] None
          [Element (lit "span") [(lit "class", lit "title")]
                   (Some (lit "WordPress Cross Site Scripting")) [] None;
           Element (lit "ul") [] None items None] None] None] None.

(** Two references; nothing follows the link of the second one. *)
Definition sample_references_page : element :=
  references_page
    [reference_item "http://wordpress.org/extend/plugins/wassup/changelog/"
                    (Some (lit "WassUp Changelog")) (Some (lit " (WordPress)"));
     reference_item "http://wordpress.org/"
                    (Some (lit "WordPress HomePage")) None].

(** A page of the exploit tab that only has the sentence of the site for
    "no exploit". *)
Definition sample_section : element :=
  Element (lit "div") [(lit "id", lit "vulnerability")] (Some [LF; TAB])
    [Element (lit "span") [(lit "class", lit "title")]
             (Some (lit "WordPress Cross Site Scripting")) [] (Some [LF; TAB]);
     Element (lit "br") [] None [] None;
     Element (lit "br") [] None []
       (Some ([LF; TAB]
              ++ lit "Currently, we are not aware of any working exploits."
              ++ lit "  If you feel we are in error, mail us."));
     Element (lit "br") [] None [] (Some [LF])] None.

Definition sample_exploit_page : element :=
  Element (lit "html") [] None
    [Element (lit "body") [] None [sample_section] None] None.

(** A page of the discussion tab whose text has two sentences, with one
    newline between them. *)
Definition sample_discussion_section : element :=
  Element (lit "div") [(lit "id", lit "vulnerability")] (Some [LF; TAB])
    [Element (lit "span") [(lit "class", lit "title")]
             (Some (lit "WordPress WassUp Plugin Cross Site Scripting")) []
             (Some [LF; TAB]);
     Element (lit "br") [] None [] None;
     Element (lit "br") [] None []
       (Some ([LF; TAB]
              ++ lit "WassUp is prone to a cross-site scripting vulnerability."
              ++ [LF] ++ lit "Versions prior to 1.9.1 are vulnerable."
              ++ [LF]))] None.

Definition sample_discussion_page : element :=
  Element (lit "html") [] None
    [Element (lit "body") [] None [sample_discussion_section] None] None.

(** A page that has no vulnerability section. *)
Definition sample_page_without_section : element :=
  Element (lit "html") [] None
    [Element (lit "body") [] None
       [Element (lit "div") [(lit "id", lit "article_list")]
                (Some (lit "The requested page was not found.")) [] None]
       None] None.

(** An item of the samples, and a schema for it: a text is JSON when it
    starts with a brace, and it has to have the field [key]. *)
Record sample_item := {
  item_key : str;
  item_producer : str;
  item_body : str
}.

Definition key_is_required : errors :=
  [(lit "key", [lit "Missing data for required field."])].

Definition sample_schema : Schema sample_item :=
  {| serialize := fun item =>
       (item_body item,
        if contains (lit "key") (item_body item) then [] else key_is_required);
     loads := fun text =>
       if startswith (lit "{") text
       then Return ({| item_key := []; item_producer := []; item_body := text |},
                    if contains (lit "key") text then [] else key_is_required)
       else Raise JSONDecodeError |}.

Definition sample_items : Items :=
  {| Meta := sample_item; VulnerabilityList := sample_item;
     VersionList := sample_item;
     meta_key := item_key; vulnerabilities_key := item_key;
     producer := item_producer; versions_key := item_key;
     MetaSchema := sample_schema; VulnerabilityListSchema := sample_schema;
     VersionListSchema := sample_schema |}.

(** A disk: below [data], the directory [wordpress] has a [META.json] that
    is no JSON, a [versions.json] without the key, and a list of
    vulnerabilities whose producer is written in upper case; the directory
    [plugins] has a list of vulnerabilities, a file of another name, and a
    directory whose name has the pattern. *)
Definition sample_disk : state :=
  {| known := ∅;
     files := list_to_map
       [(lit "data", Dir);
        (lit "data/wordpress", Dir);
        (lit "data/wordpress/META.json", File (lit "<html>"));
        (lit "data/wordpress/versions.json", File (lit "{}"));
        (lit "data/wordpress/vuln-ABC.json", File (lit "{key: wordpress}"));
        (lit "data/plugins", Dir);
        (lit "data/plugins/vuln-securityfocus.json", File (lit "{key: plugins}"));
        (lit "data/plugins/vulnerabilities.json", File (lit "{key: plugins}"));
        (lit "data/plugins/vuln-old.json", Dir)];
     log := []; trace := [] |}.

Definition two_appends : list (@Storage.call sample_items * io_env) :=
  [(Storage.call_append (lit "logs/run.log") (lit "first" ++ [LF; LF]), io_ok);
   (Storage.call_append (lit "logs/run.log") (lit "second"), io_ok)].


(** * Further vocabulary *)

(** The last character of a string is whitespace. *)
Fixpoint ends_with_space (s : str) : bool :=
  match s with
  | [] => false
  | [c] => isspace c
  | _ :: s' => ends_with_space s'
  end.

(** A trimmed text: no whitespace at either end. *)
Definition trimmed (s : str) : Prop :=
  starts_with_space s = false /\ ends_with_space s = false.

(** A normalised text: trimmed, and no two whitespace characters follow
    each other. *)
Definition normalized (s : str) : Prop :=
  no_space_pair s = true /\ trimmed s.

(** The characters of a string that are no whitespace, in their order. *)
Definition visible (s : str) : str :=
  List.filter (fun c => negb (isspace c)) s.

(** A fragment of a cell that gives an identifier: the tail of a child of
    the cell, trimmed and not blank. *)
Definition cve_fragment (td_element : element) (x : str) : Prop :=
  exists c u, In c (children td_element) /\ tail c = Some u
              /\ strip u = x /\ x <> [].

(** A row whose value cell has a text and line breaks with tails. *)
Definition breaks_row (label : string) (value : option str)
    (tails : list (option str)) : element :=
  Element (lit "tr") [] None
    [Element (lit "td") [] None
       [Element (lit "span") [(lit "class", lit "label")] (Some (lit label))
                [] None] None;
     Element (lit "td") [] value
       (map (fun t => Element (lit "br") [] None [] t) tails) None] None.

Definition cell_of (row : element) : element :=
  match children row with
  | [_; cell] => cell
  | _ => row
  end.

Definition sample_cve_row : element :=
  breaks_row "CVE:" (Some ([LF; TAB] ++ lit "CVE-2016-6897"))
    [Some ([LF; TAB] ++ lit "CVE-2016-6896" ++ [LF]);
     Some ([LF; TAB] ++ lit "CVE-2016-6897"); None; Some [LF]].

Definition sample_cve_cell : element := cell_of sample_cve_row.

(** A page with two identifiers, one of them twice, and two versions. *)
Definition sample_versions_page : element :=
  info_page
    [sample_cve_row;
     breaks_row "Vulnerable:" (Some ([LF; TAB] ++ lit "WordPress WordPress  4.5.3"))
       [Some [LF; TAB]; Some (lit "WordPress WordPress 4.5.2" ++ [LF])];
     breaks_row "Not Vulnerable:" (Some [LF; TAB]) []].

(** What [get_references] does with the [href] of a link: it stays as it
    is when it has a network location or when the parser has no base URL,
    and it is joined to the base URL otherwise. *)
Definition resolved {urllib : Urllib} (base : option str) (href url : str)
  : Prop :=
  exists netloc,
    urlparse_netloc href = Return netloc
    /\ match netloc, base with
       | [], Some b => urljoin b href = Return url
       | _, _ => url = href
       end.

(** Two references with text behind both links. *)
Definition sample_two_references : element :=
  references_page
    [reference_item "http://seclists.org/oss-sec/2015/q2/51"
                    (Some (lit "CVE request")) (Some (lit " (Henri Salo)"));
     reference_item "http://wordpress.org/extend/plugins/wassup/"
                    (Some (lit "WassUp Homepage")) (Some (lit " (WordPress)"))].

(** A page of the exploit tab with two paragraphs. *)
Definition sample_two_paragraphs : element :=
  Element (lit "html") [] None
    [Element (lit "body") [] None
       [Element (lit "div") [(lit "id", lit "vulnerability")] (Some [LF; TAB])
          [Element (lit "span") [(lit "class", lit "title")]
                   (Some (lit "WordPress Cross Site Scripting")) [] (Some [LF; TAB]);
           Element (lit "br") [] None [] None;
           Element (lit "br") [] None []
             (Some ([LF; TAB] ++ lit "The following exploit URL is available:"));
           Element (lit "br") [] None [] None;
           Element (lit "br") [] None []
             (Some (lit "https://www.example.com/wordpress/" ++ [LF]))]
          None] None] None.

(** The schema gives an item back from the text it wrote for it. *)
Definition round_trips {A} (schema : Schema A) (item : A) : Prop :=
  @loads A schema (fst (@serialize A schema item)) = Return (item, []).

(** A schema for the lists of one producer in one directory: the text is
    the body of the item. *)
Definition plugins_schema : Schema sample_item :=
  {| serialize := fun item => (item_body item, []);
     loads := fun text =>
       if startswith (lit "{") text
       then Return ({| item_key := lit "plugins";
                       item_producer := lit "SecurityFocus";
                       item_body := text |}, [])
       else Raise JSONDecodeError |}.

Definition plugins_items : Items :=
  {| Meta := sample_item; VulnerabilityList := sample_item;
     VersionList := sample_item;
     meta_key := item_key; vulnerabilities_key := item_key;
     producer := item_producer; versions_key := item_key;
     MetaSchema := plugins_schema; VulnerabilityListSchema := plugins_schema;
     VersionListSchema := plugins_schema |}.

Definition sample_list : sample_item :=
  {| item_key := lit "plugins"; item_producer := lit "SecurityFocus";
     item_body := lit "{id: 73931}" |}.

(** Between two disks: an entry is as it was, or it is a directory that
    was not there. *)
Definition only_new_directories (fs fs' : gmap str fnode) : Prop :=
  forall q, fs' !! q = fs !! q \/ (fs !! q = None /\ fs' !! q = Some Dir).


(** A line of a file of lines: it has no line feed and no carriage
    return. *)
Definition is_line (l : str) : bool :=
  forallb (fun c => negb (Ascii.eqb c LF) && negb (Ascii.eqb c CR)) l.

(** The text of a file of lines. *)
Definition text_of_lines (ls : list str) : str :=
  concat (map (fun l => l ++ [LF]) ls).

(** The file at a path holds these lines; no file is no line. *)
Definition holds_lines (fs : gmap str fnode) (path : str) (ls : list str)
  : Prop :=
  fs !! path = Some (File (text_of_lines ls))
  \/ (fs !! path = None /\ ls = []).


(** * Properties *)

(** ** Whitespace *)

Section Stripping.
Variable p : ascii -> bool.

Lemma rstrip_by_head c s :
  p c = false ->
  exists r, rstrip_by p (c :: s) = c :: r.
Proof.
  intros Hc. simpl. destruct (rstrip_by p s) as [| d r].
  - rewrite Hc. now exists [].
  - now exists (d :: r).
Qed.

Lemma rstrip_by_cons_inv c s d r :
  rstrip_by p (c :: s) = d :: r ->
  d = c /\ (r = [] \/ r = rstrip_by p s /\ r <> []).
Proof.
  simpl. destruct (rstrip_by p s) as [| e r'].
  - destruct (p c); [discriminate |]. intros [= <- <-]. auto.
  - intros [= <- <-]. split; [reflexivity |]. right. split; congruence.
Qed.

Lemma rstrip_by_idem s : rstrip_by p (rstrip_by p s) = rstrip_by p s.
Proof.
  induction s as [| c s IH]; [reflexivity |].
  simpl. destruct (rstrip_by p s) as [| d r] eqn:E.
  - destruct (p c) eqn:Hc; simpl; [reflexivity | now rewrite Hc].
  - simpl in IH. simpl. destruct (rstrip_by p r) as [| e r'].
    + destruct (p d); [discriminate |]. now injection IH as ->.
    + now rewrite IH.
Qed.

Lemma lstrip_by_head s :
  match lstrip_by p s with
  | c :: _ => p c = false
  | [] => True
  end.
Proof.
  induction s as [| c s IH]; [exact I |].
  simpl. destruct (p c) eqn:Hc; [exact IH | exact Hc].
Qed.

Lemma lstrip_by_fixed s :
  match s with c :: _ => p c = false | [] => True end ->
  lstrip_by p s = s.
Proof. destruct s as [| c s]; [reflexivity |]. simpl. now intros ->. Qed.

Lemma strip_by_idem s : strip_by p (strip_by p s) = strip_by p s.
Proof.
  unfold strip_by.
  assert (H : lstrip_by p (rstrip_by p (lstrip_by p s))
              = rstrip_by p (lstrip_by p s)).
  { apply lstrip_by_fixed.
    pose proof (lstrip_by_head s) as Hh.
    destruct (lstrip_by p s) as [| c u]; [exact I |].
    destruct (rstrip_by_head c u Hh) as [r ->]. exact Hh. }
  rewrite H. apply rstrip_by_idem.
Qed.
End Stripping.

Lemma isspace_SPACE : isspace SPACE = true.
Proof. reflexivity. Qed.

Lemma starts_re_sub_true s : starts_with_space (re_sub_from true s) = false.
Proof.
  induction s as [| c s IH]; [reflexivity |].
  simpl. destruct (isspace c) eqn:Hc; [exact IH | exact Hc].
Qed.

Lemma starts_re_sub_false s :
  starts_with_space (re_sub_from false s) = starts_with_space s.
Proof.
  destruct s as [| c s]; [reflexivity |].
  simpl. destruct (isspace c) eqn:Hc; [| exact Hc].
  destruct (starts_with_space s); simpl; [reflexivity | exact Hc].
Qed.

Lemma no_space_pair_re_sub b s : no_space_pair (re_sub_from b s) = true.
Proof.
  revert b. induction s as [| c s IH]; intros b; [reflexivity |].
  simpl. destruct (isspace c) eqn:Hc.
  - destruct b; [apply IH |].
    destruct (starts_with_space s) eqn:Hs; simpl; unfold no_space_pair_b.
    + now rewrite starts_re_sub_true, IH, andb_false_r.
    + now rewrite starts_re_sub_false, Hs, IH, andb_false_r.
  - simpl. unfold no_space_pair_b. now rewrite Hc, IH.
Qed.

Lemma re_sub_fixed s : no_space_pair s = true -> re_sub_from false s = s.
Proof.
  induction s as [| c s IH]; [reflexivity |].
  simpl. unfold no_space_pair_b. intros [H1 H2]%andb_true_iff.
  rewrite (IH H2). destruct (isspace c); [| reflexivity].
  simpl in H1. apply negb_true_iff in H1. now rewrite H1.
Qed.

Lemma no_space_pair_tail c s :
  no_space_pair (c :: s) = true -> no_space_pair s = true.
Proof. simpl. now intros [_ H]%andb_true_iff. Qed.

Lemma no_space_pair_lstrip s :
  no_space_pair s = true -> no_space_pair (lstrip_by isspace s) = true.
Proof.
  induction s as [| c s IH]; [reflexivity |].
  intros H. simpl. destruct (isspace c); [| exact H].
  apply IH. exact (no_space_pair_tail _ _ H).
Qed.

Lemma no_space_pair_rstrip s :
  no_space_pair s = true -> no_space_pair (rstrip_by isspace s) = true.
Proof.
  induction s as [| c s IH]; [reflexivity |].
  intros H. pose proof (no_space_pair_tail _ _ H) as Ht.
  specialize (IH Ht). simpl.
  destruct (rstrip_by isspace s) as [| d r] eqn:E.
  - destruct (isspace c); [reflexivity |].
    cbn. unfold no_space_pair_b. cbn. now rewrite andb_false_r.
  - simpl in *. rewrite IH, andb_true_r.
    apply andb_true_iff in H as [H _].
    destruct s as [| d' s']; [discriminate |].
    apply rstrip_by_cons_inv in E as [-> _]. exact H.
Qed.

Lemma no_space_pair_strip_whitespaces s :
  no_space_pair (strip_whitespaces s) = true.
Proof.
  unfold strip_whitespaces, strip, strip_by, re_sub_spaces.
  apply no_space_pair_rstrip, no_space_pair_lstrip, no_space_pair_re_sub.
Qed.

(** C9. Normalising a text that is already normalised changes nothing:
    [strip_whitespaces (strip_whitespaces s) = strip_whitespaces s] for every
    string [s]. *)
Theorem strip_whitespaces_idempotent (s : str) :
  strip_whitespaces (strip_whitespaces s) = strip_whitespaces s.
Proof.
  pose proof (no_space_pair_strip_whitespaces s) as H.
  unfold strip_whitespaces at 1. unfold re_sub_spaces.
  rewrite (re_sub_fixed _ H).
  unfold strip_whitespaces, strip. apply strip_by_idem.
Qed.

(** The first run of a string starts with the first character of the
    string, and no run is empty. *)
Lemma runs_head s :
  match s, runs s with
  | [], [] => True
  | c :: _, (d :: _) :: _ => d = c
  | _, _ => False
  end.
Proof.
  induction s as [| c s IH]; [exact I |].
  simpl. destruct s as [| c' s'].
  - reflexivity.
  - destruct (runs (c' :: s')) as [| [| d r] rs]; try contradiction.
    destruct (Bool.eqb (isspace c) (isspace d)); reflexivity.
Qed.

Lemma runs_concat s : concat (runs s) = s.
Proof.
  induction s as [| c s IH]; [reflexivity |].
  simpl. pose proof (runs_head s) as Hh.
  destruct s as [| c' s'].
  - reflexivity.
  - destruct (runs (c' :: s')) as [| [| d r] rs]; try contradiction.
    destruct (Bool.eqb (isspace c) (isspace d)); simpl in *; now rewrite IH.
Qed.

Lemma runs_maximal s : maximal_runs (runs s).
Proof.
  induction s as [| c s IH]; [exact I |].
  cbn [runs]. destruct (runs s) as [| [| d r] rs]; [| contradiction |].
  - cbn. auto.
  - destruct IH as (Hr & Hnext & Hrs).
    destruct (Bool.eqb (isspace c) (isspace d)) eqn:E.
    + apply Bool.eqb_prop in E. cbn [maximal_runs]. rewrite E.
      repeat split; [constructor; [reflexivity | exact Hr] | exact Hnext | exact Hrs].
    + apply Bool.eqb_false_iff in E. cbn [maximal_runs].
      repeat split; [constructor | | exact Hr | exact Hnext | exact Hrs].
      destruct (isspace c) eqn:Hc, (isspace d) eqn:Hd; cbn; congruence.
Qed.

Lemma collapse_long_run_word c r :
  isspace c = false -> collapse_long_run (c :: r) = c :: r.
Proof. intros H. destruct r; cbn; [reflexivity | now rewrite H]. Qed.

Lemma re_sub_from_runs s :
  re_sub_from false s = concat (map collapse_long_run (runs s))
  /\ re_sub_from true s
     = concat (map collapse_long_run (behind_space_run (runs s))).
Proof.
  induction s as [| c s [IHf IHt]]; [split; reflexivity |].
  pose proof (runs_head s) as Hh.
  simpl. destruct s as [| c' s'].
  - simpl. destruct (isspace c); split; reflexivity.
  - destruct (runs (c' :: s')) as [| [| d r] rs] eqn:E; try contradiction.
    subst d. cbn [starts_with_space].
    destruct (isspace c) eqn:Hc, (isspace c') eqn:Hc'; cbn [Bool.eqb].
    + (* a run of whitespace goes on *)
      cbn [behind_space_run] in *. rewrite Hc, Hc' in *.
      split; [| exact IHt].
      rewrite IHt. cbn [map concat collapse_long_run]. now rewrite Hc.
    + (* one whitespace character before a word *)
      cbn [behind_space_run] in *. rewrite Hc, Hc' in *.
      split; [now rewrite IHf | exact IHt].
    + cbn [behind_space_run]. rewrite Hc.
      split; now rewrite IHf.
    + cbn [behind_space_run]. rewrite Hc.
      split; rewrite IHf; cbn [map concat];
        now rewrite !collapse_long_run_word.
Qed.

(** C8, as the code has it. [strip_whitespaces] cuts a string into its
    maximal runs of whitespace and of other characters, writes one space for
    each whitespace run of two or more characters, keeps every other run
    (also a single newline or tab) as it is, and then removes the whitespace
    at both ends. *)
Theorem strip_whitespaces_collapses_long_runs (s : str) :
  concat (runs s) = s
  /\ maximal_runs (runs s)
  /\ strip_whitespaces s = strip (concat (map collapse_long_run (runs s))).
Proof.
  split; [apply runs_concat | split; [apply runs_maximal |]].
  unfold strip_whitespaces, re_sub_spaces.
  now rewrite (proj1 (re_sub_from_runs s)).
Qed.

(** C8, as the specification words it, fails: a single newline between two
    words is a run of whitespace, and it stays a newline. *)
Lemma strip_whitespaces_keeps_single_newline :
  strip_whitespaces (lit "a" ++ [LF] ++ lit "b") = lit "a" ++ [LF] ++ lit "b"
  /\ normalize_as_specified (lit "a" ++ [LF] ++ lit "b") = lit "a b"
  /\ strip_whitespaces (lit "a" ++ [LF] ++ lit "b")
     <> normalize_as_specified (lit "a" ++ [LF] ++ lit "b").
Proof. repeat split. intros H. vm_compute in H. discriminate H. Qed.

(** ** Substrings *)

Lemma startswith_spec p s :
  startswith p s = true <-> exists post, s = p ++ post.
Proof.
  revert s. induction p as [| a p IH]; intros s; simpl.
  - split; [intros _; now exists s | reflexivity].
  - destruct s as [| b s].
    + split; [discriminate | intros [post H]; discriminate H].
    + rewrite andb_true_iff, Ascii.eqb_eq, IH. split.
      * intros [-> [post ->]]. now exists post.
      * intros [post [= -> ->]]. split; [reflexivity | now exists post].
Qed.

Lemma contains_spec p t : contains p t = true <-> is_substring p t.
Proof.
  unfold is_substring. induction t as [| c t IH].
  - simpl. rewrite orb_false_r, startswith_spec. split.
    + intros [post H]. now exists [], post.
    + intros [pre [post H]]. destruct pre as [| x pre]; [| discriminate H].
      now exists post.
  - cbn [contains]. rewrite orb_true_iff, IH, startswith_spec. split.
    + intros [[post H] | [pre [post H]]].
      * now exists [], post.
      * exists (c :: pre), post. simpl. now rewrite H.
    + intros [[| x pre] [post H]].
      * left. now exists post.
      * right. injection H as -> H. now exists pre, post.
Qed.

(** ** The free text of the discussion, exploit and solution tabs *)

Lemma discussion_loop_spec tags acc :
  DiscussionTabParser.discussion_loop tags acc
  = acc ++ concat (tails_of_breaks tags).
Proof.
  revert acc. induction tags as [| c tags IH]; intros acc; simpl.
  - now rewrite app_nil_r.
  - destruct (is_br c); [| apply IH].
    destruct (tail c) as [t |]; simpl; [| apply IH].
    now rewrite IH, app_assoc.
Qed.

Lemma description_loop_none phrase tags acc :
  description_loop phrase tags acc = None
  <-> exists t, In t (tails_of_breaks tags) /\ contains phrase t = true.
Proof.
  revert acc. induction tags as [| c tags IH]; intros acc; simpl.
  - split; [discriminate | intros [t [[] _]]].
  - destruct (is_br c); simpl.
    + destruct (tail c) as [t |]; simpl.
      * destruct (contains phrase t) eqn:Hc.
        -- split; [intros _; exists t; auto | reflexivity].
        -- rewrite IH. split.
           ++ intros [u [Hu Hp]]. exists u. auto.
           ++ intros [u [[-> | Hu] Hp]]; [congruence | exists u; auto].
      * apply IH.
    + apply IH.
Qed.

Lemma description_loop_some phrase tags acc :
  description_loop phrase tags acc <> None ->
  description_loop phrase tags acc
  = Some (strip_whitespaces (acc ++ concat (tails_of_breaks tags))).
Proof.
  revert acc. induction tags as [| c tags IH]; intros acc; simpl.
  - now rewrite app_nil_r.
  - destruct (is_br c); simpl; [| apply IH].
    destruct (tail c) as [t |]; simpl; [| apply IH].
    destruct (contains phrase t); [congruence |].
    intros H. now rewrite (IH _ H), app_assoc.
Qed.

Lemma description_loop_correct phrase div_tag :
  (description_loop phrase (children div_tag) [] = None
   <-> some_fragment_has phrase div_tag)
  /\ (~ some_fragment_has phrase div_tag ->
      description_loop phrase (children div_tag) []
      = Some (strip_whitespaces (concat (br_tails div_tag)))).
Proof.
  assert (Hiff : description_loop phrase (children div_tag) [] = None
                 <-> some_fragment_has phrase div_tag).
  { rewrite description_loop_none. unfold some_fragment_has, br_tails.
    split; intros [t [Ht Hp]]; exists t; split; try exact Ht;
      now apply contains_spec. }
  split; [exact Hiff |].
  intros Hno. apply description_loop_some. now rewrite Hiff.
Qed.

(** C3. In a document with a vulnerability section, [get_exploit_description]
    and [get_solution] return [None] exactly when a break-tail text fragment
    of the section has the fixed phrase of the tab, and otherwise the
    accumulated text, normalised as the code does it: every whitespace run
    of two or more characters is one space, every other run is kept, and the
    whitespace at both ends is removed.  [get_discussion] returns that text
    and never [None].  In a document without a vulnerability section the
    three raise [IndexError]. *)
Theorem free_text_extraction (root : element) :
  let exploit := {| ExploitTabParser.html_tree := Some root |} in
  let solution := {| SolutionTabParser.html_tree := Some root |} in
  let discussion := {| DiscussionTabParser.html_tree := Some root |} in
  match xpath_vulnerability_div root with
  | [] =>
      ExploitTabParser.get_exploit_description exploit = Raise IndexError
      /\ SolutionTabParser.get_solution solution = Raise IndexError
      /\ DiscussionTabParser.get_discussion discussion = Raise IndexError
  | div_tag :: _ =>
      let accumulated := concat (br_tails div_tag) in
      let text := strip (concat (map collapse_long_run (runs accumulated))) in
      (ExploitTabParser.get_exploit_description exploit = Return None
       <-> some_fragment_has ExploitTabParser.no_exploit_phrase div_tag)
      /\ (~ some_fragment_has ExploitTabParser.no_exploit_phrase div_tag ->
          ExploitTabParser.get_exploit_description exploit = Return (Some text))
      /\ (SolutionTabParser.get_solution solution = Return None
          <-> some_fragment_has SolutionTabParser.no_solution_phrase div_tag)
      /\ (~ some_fragment_has SolutionTabParser.no_solution_phrase div_tag ->
          SolutionTabParser.get_solution solution = Return (Some text))
      /\ DiscussionTabParser.get_discussion discussion = Return text
  end.
Proof.
  intros exploit solution discussion.
  unfold ExploitTabParser.get_exploit_description, SolutionTabParser.get_solution,
    DiscussionTabParser.get_discussion.
  cbn [ExploitTabParser.tree SolutionTabParser.tree DiscussionTabParser.tree
       ExploitTabParser.html_tree SolutionTabParser.html_tree
       DiscussionTabParser.html_tree exploit solution discussion bind].
  destruct (xpath_vulnerability_div root) as [| div_tag others];
    cbn [index0 bind]; [now repeat split |].
  assert (Htext : forall s, strip (concat (map collapse_long_run (runs s)))
                            = strip_whitespaces s).
  { intros s. unfold strip_whitespaces, re_sub_spaces.
    now rewrite (proj1 (re_sub_from_runs s)). }
  rewrite Htext.
  destruct (description_loop_correct ExploitTabParser.no_exploit_phrase div_tag)
    as [He1 He2].
  destruct (description_loop_correct SolutionTabParser.no_solution_phrase div_tag)
    as [Hs1 Hs2].
  repeat split.
  - intros [= H]. now apply He1.
  - intros H. f_equal. now apply He1.
  - intros H. f_equal. now apply He2.
  - intros [= H]. now apply Hs1.
  - intros H. f_equal. now apply Hs1.
  - intros H. f_equal. now apply Hs2.
  - now rewrite discussion_loop_spec.
Qed.

(** C3, as the specification words it, fails.  A document without a
    vulnerability section gives no text: [get_discussion] raises.  And the
    text that is returned is not the one of the specification's
    normalisation: a newline that stands alone between two sentences stays
    a newline. *)
Lemma get_discussion_raises_without_section :
  DiscussionTabParser.get_discussion
    {| DiscussionTabParser.html_tree := Some sample_page_without_section |}
  = Raise IndexError
  /\ ExploitTabParser.get_exploit_description
       {| ExploitTabParser.html_tree := Some sample_page_without_section |}
     = Raise IndexError
  /\ DiscussionTabParser.get_discussion
       {| DiscussionTabParser.html_tree := Some sample_discussion_page |}
     = Return (lit "WassUp is prone to a cross-site scripting vulnerability."
               ++ [LF] ++ lit "Versions prior to 1.9.1 are vulnerable.")
  /\ normalize_as_specified (concat (br_tails sample_discussion_section))
     = lit "WassUp is prone to a cross-site scripting vulnerability."
       ++ lit " Versions prior to 1.9.1 are vulnerable."
  /\ DiscussionTabParser.get_discussion
       {| DiscussionTabParser.html_tree := Some sample_discussion_page |}
     <> Return (normalize_as_specified
                  (concat (br_tails sample_discussion_section))).
Proof.
  split; [vm_compute; reflexivity |].
  split; [vm_compute; reflexivity |].
  split; [vm_compute; reflexivity |].
  split; [vm_compute; reflexivity |].
  intros H. vm_compute in H. discriminate H.
Qed.

(** ** The document tree *)

Lemma descendants_parent parent e :
  map snd (iter_with_parent parent e) = descendants e.
Proof.
  unfold descendants. destruct e as [tg at_ tx cs tl]. reflexivity.
Qed.

Lemma descendants_unfold e :
  descendants e = e :: flat_map descendants (children e).
Proof.
  assert (H : forall parent cs,
             map snd (flat_map (iter_with_parent parent) cs)
             = flat_map descendants cs).
  { intros parent cs. induction cs as [| c cs IH]; [reflexivity |].
    cbn [flat_map]. now rewrite map_app, IH, descendants_parent. }
  destruct e as [tg at_ tx cs tl]. unfold descendants at 1.
  cbn [iter_with_parent map snd children]. now rewrite H.
Qed.

Lemma descendants_self e : In e (descendants e).
Proof. rewrite descendants_unfold. now left. Qed.

Lemma descendants_trans e :
  forall d x, In d (descendants e) -> In x (descendants d) ->
              In x (descendants e).
Proof.
  induction e as [tg at_ tx cs tl IH] using element_ind.
  intros d x Hd Hx. rewrite descendants_unfold in Hd |- *.
  destruct Hd as [<- | Hd].
  - now rewrite descendants_unfold in Hx.
  - right. cbn [children] in *. apply in_flat_map in Hd as [c [Hc Hd]].
    apply in_flat_map. exists c. split; [exact Hc |].
    rewrite List.Forall_forall in IH. exact (IH c Hc d x Hd Hx).
Qed.

Lemma descendants_child e c :
  In c (children e) -> In c (descendants e).
Proof.
  intros Hc. rewrite descendants_unfold. right.
  apply in_flat_map. exists c. split; [exact Hc | apply descendants_self].
Qed.

(** The rows that the text nodes of a tree know are elements of the tree. *)
Lemma text_nodes_context e :
  forall ctx n, In n (text_nodes ctx e) ->
    node_context n = ctx
    \/ exists row i, node_context n = Some (row, i) /\ In row (descendants e).
Proof.
  induction e as [tg at_ tx cs tl IH] using element_ind.
  intros ctx n. cbn [text_nodes text children].
  set (e := Element tg at_ tx cs tl) in *.
  assert (Hcs : forall c, In c cs -> In c (descendants e)).
  { intros c Hc. now apply descendants_child. }
  intros Hn. apply in_app_or in Hn as [Hn | Hn].
  { destruct tx; [destruct Hn as [<- | []]; now left | destruct Hn]. }
  revert Hn. generalize 0 as i. clearbody e.
  induction cs as [| c cs IHcs]; intros i Hn; [destruct Hn |].
  apply List.Forall_cons_iff in IH as [IHc IH].
  apply in_app_or in Hn as [Hn | Hn]; [| apply in_app_or in Hn as [Hn | Hn]].
  - right. destruct (IHc _ _ Hn) as [Hctx | [row [j [Hctx Hrow]]]].
    + exists e, i. split; [exact Hctx | apply descendants_self].
    + exists row, j. split; [exact Hctx |].
      apply (descendants_trans e c); [apply Hcs; now left | exact Hrow].
  - destruct (tail c); [destruct Hn as [<- | []]; now left | destruct Hn].
  - exact (IHcs IH (fun c' Hc' => Hcs c' (or_intror Hc')) (S i) Hn).
Qed.

Lemma row_missing_no_value label root :
  row_missing label root -> xpath_label_value label root = [].
Proof.
  intros Hmiss. unfold xpath_label_value.
  assert (H : forall n, In n (text_nodes None root) ->
                        in_value_cell label n = false).
  { intros n Hn. unfold in_value_cell.
    destruct (text_nodes_context root None n Hn) as [-> | [row [i [-> Hrow]]]];
      [reflexivity |].
    destruct (has_label_span label row) eqn:Hl; [| now rewrite andb_false_r].
    exfalso. unfold has_label_span in Hl.
    apply existsb_exists in Hl as [cell [Hcell Hl]].
    apply existsb_exists in Hl as [sp [Hsp Hl]].
    rewrite Hmiss in Hl; [discriminate |].
    apply (descendants_trans root row); [exact Hrow |].
    apply (descendants_trans row cell); now apply descendants_child. }
  induction (text_nodes None root) as [| n l IH]; [reflexivity |].
  simpl. rewrite H by now left. apply IH. intros m Hm. apply H. now right.
Qed.

(** ** The info tab *)

(** The lookup of a label, by what the query finds. *)
Lemma _parse_element_found self root label t rest :
  InfoTabParser.html_tree self = Some root ->
  xpath_label_value label root = t :: rest ->
  InfoTabParser._parse_element self label
  = Return (match strip t with [] => None | _ :: _ => Some (strip t) end).
Proof.
  intros Htree Hx. unfold InfoTabParser._parse_element, InfoTabParser.tree.
  rewrite Htree. cbn [bind]. rewrite Hx. cbn [index0 bind].
  now destruct (strip t).
Qed.

Lemma _parse_element_not_found self root label :
  InfoTabParser.html_tree self = Some root ->
  xpath_label_value label root = [] ->
  InfoTabParser._parse_element self label = Raise IndexError.
Proof.
  intros Htree Hx. unfold InfoTabParser._parse_element, InfoTabParser.tree.
  rewrite Htree. cbn [bind]. now rewrite Hx.
Qed.

(** C1, as the code has it. The label lookup returns [None], and does not
    raise, when the query finds a text node in the value cell and the first
    one is empty after trimming; it returns the trimmed text when that is
    not empty.  When the labelled row is missing from the document, as
    whenever the query finds no text node, it raises [IndexError]. *)
Theorem label_lookup (self : InfoTabParser.t) (root : element) (label : str) :
  InfoTabParser.html_tree self = Some root ->
  (forall t rest, xpath_label_value label root = t :: rest -> strip t = [] ->
     InfoTabParser._parse_element self label = Return None)
  /\ (forall t rest, xpath_label_value label root = t :: rest -> strip t <> [] ->
        InfoTabParser._parse_element self label = Return (Some (strip t)))
  /\ (xpath_label_value label root = [] ->
        InfoTabParser._parse_element self label = Raise IndexError)
  /\ (row_missing label root ->
        InfoTabParser._parse_element self label = Raise IndexError).
Proof.
  intros Htree. split; [| split; [| split]].
  - intros t rest Hx Ht.
    now rewrite (_parse_element_found self root label t rest Htree Hx), Ht.
  - intros t rest Hx Ht.
    rewrite (_parse_element_found self root label t rest Htree Hx).
    destruct (strip t); [congruence | reflexivity].
  - now apply _parse_element_not_found.
  - intros Hmiss. apply (_parse_element_not_found self root label Htree).
    now apply row_missing_no_value.
Qed.

Lemma label_lookup_witness :
  InfoTabParser.get_vuln_class (info_parser sample_info_page) = Return None
  /\ InfoTabParser.get_bugtraq_id (info_parser sample_info_page)
     = Return (Some (lit "92841"))
  /\ InfoTabParser.get_credit (info_parser sample_info_page) = Raise IndexError.
Proof.
  split; [| split].
  - destruct (label_lookup (info_parser sample_info_page) sample_info_page
                           (lit "Class:") eq_refl) as [H _].
    apply (H [LF; TAB; SPACE] []); reflexivity.
  - destruct (label_lookup (info_parser sample_info_page) sample_info_page
                           (lit "Bugtraq ID:") eq_refl) as (_ & H & _).
    apply (H ([LF; TAB] ++ lit "92841" ++ [LF]) []); [reflexivity |].
    discriminate.
  - destruct (label_lookup (info_parser sample_info_page) sample_info_page
                           (lit "Credit:") eq_refl) as (_ & _ & H & _).
    apply H. reflexivity.
Defined.

(** C1, as the specification words it, fails: the sample page has no row
    for the credit, and the lookup raises [IndexError] where it is said to
    return [None]. *)
Lemma label_lookup_raises_on_missing_row :
  existsb (is_label_span (lit "Credit:")) (descendants sample_info_page) = false
  /\ InfoTabParser.get_credit (info_parser sample_info_page) = Raise IndexError
  /\ InfoTabParser.get_credit (info_parser sample_info_page) <> Return None.
Proof. repeat split. discriminate. Qed.

(** ** The dates of the info tab *)

Lemma date_of_groups_raises groups e :
  date_of_groups groups = Raise e -> exists why, e = ValueError why.
Proof.
  unfold date_of_groups.
  repeat match goal with
         | |- context [match ?x with _ => _ end] => destruct x
         end; intros [= <-]; eauto.
Qed.

Lemma strptime_raises data format e :
  strptime (Some data) format = Raise e -> exists why, e = ValueError why.
Proof.
  unfold strptime.
  destruct (pattern false format) as [ts |]; [| intros [= <-]; eauto].
  destruct (match_tokens ts data) as [| [groups rest] ms];
    [intros [= <-]; eauto |].
  destruct rest; [apply date_of_groups_raises | intros [= <-]; eauto].
Qed.

Lemma date_field_spec label self root t rest :
  InfoTabParser.html_tree self = Some root ->
  xpath_label_value label root = t :: rest ->
  strip t <> [] ->
  date_field label self = strptime (Some (strip t)) securityfocus_date_format
  /\ (strip t = lit "Sep 07 2016 12:00AM" ->
      date_field label self
      = Return {| year := 2016; month := 9; day := 7; hour := 0; minute := 0 |})
  /\ (forall e, date_field label self = Raise e -> exists why, e = ValueError why).
Proof.
  intros Htree Hx Ht.
  assert (H : date_field label self
              = strptime (Some (strip t)) securityfocus_date_format).
  { unfold date_field.
    rewrite (_parse_element_found self root label t rest Htree Hx).
    destruct (strip t) as [| c u]; [congruence |]. cbn [bind].
    now destruct (strptime _ _). }
  split; [exact H | split].
  - intros Heq. rewrite H, Heq. reflexivity.
  - intros e. rewrite H. apply strptime_raises.
Qed.

(** C4, as the code has it. [get_publication_date] and
    [get_last_update_date] give the trimmed text of the cell to [strptime]
    with the fixed format: the text [Sep 07 2016 12:00AM] gives
    2016-09-07 00:00, and a text that the format does not match, as
    [2016-09-07], raises the [ValueError] of [strptime], which has the text
    and the format and not the name of the field. *)
Theorem date_fields (self : InfoTabParser.t) (root : element) :
  InfoTabParser.html_tree self = Some root ->
  let midnight := {| year := 2016; month := 9; day := 7; hour := 0; minute := 0 |} in
  let format := securityfocus_date_format in
  strptime (Some (lit "Sep 07 2016 12:00AM")) format = Return midnight
  /\ strptime (Some (lit "2016-09-07")) format
     = Raise (ValueError (does_not_match (lit "2016-09-07") format))
  /\ (forall t rest, xpath_label_value (lit "Published:") root = t :: rest ->
      strip t <> [] ->
      InfoTabParser.get_publication_date self = strptime (Some (strip t)) format
      /\ (strip t = lit "Sep 07 2016 12:00AM" ->
          InfoTabParser.get_publication_date self = Return midnight)
      /\ (forall e, InfoTabParser.get_publication_date self = Raise e ->
                    exists why, e = ValueError why))
  /\ (forall t rest, xpath_label_value (lit "Updated:") root = t :: rest ->
      strip t <> [] ->
      InfoTabParser.get_last_update_date self = strptime (Some (strip t)) format
      /\ (strip t = lit "Sep 07 2016 12:00AM" ->
          InfoTabParser.get_last_update_date self = Return midnight)
      /\ (forall e, InfoTabParser.get_last_update_date self = Raise e ->
                    exists why, e = ValueError why)).
Proof.
  intros Htree midnight format.
  split; [reflexivity | split; [reflexivity | split]];
    intros t rest Hx Ht.
  - exact (date_field_spec (lit "Published:") self root t rest Htree Hx Ht).
  - exact (date_field_spec (lit "Updated:") self root t rest Htree Hx Ht).
Qed.

Lemma date_fields_witness :
  InfoTabParser.get_publication_date (info_parser sample_info_page)
  = Return {| year := 2016; month := 9; day := 7; hour := 0; minute := 0 |}
  /\ InfoTabParser.get_last_update_date (info_parser sample_info_page)
     = Return {| year := 2016; month := 9; day := 2; hour := 20; minute := 0 |}.
Proof.
  destruct (date_fields (info_parser sample_info_page) sample_info_page eq_refl)
    as (_ & _ & Hp & Hu).
  split.
  - destruct (Hp (lit " Sep 07 2016 12:00AM" ++ [LF]) [] eq_refl) as (_ & H & _);
      [discriminate |].
    apply H. reflexivity.
  - destruct (Hu (lit "Sep 02 2016 08:00PM") [] eq_refl) as (H & _);
      [discriminate |].
    rewrite H. reflexivity.
Defined.

(** C4, as the specification words it, fails: for the date [2016-09-07]
    the exception is the [ValueError] of [strptime], and no
    [ExtractionError]. *)
Lemma malformed_date_raises_value_error :
  InfoTabParser.get_publication_date (info_parser other_date_page)
  = Raise (ValueError (does_not_match (lit "2016-09-07")
                                      securityfocus_date_format))
  /\ forall field,
       InfoTabParser.get_publication_date (info_parser other_date_page)
       <> Raise (ExtractionError field).
Proof. split; [reflexivity | discriminate]. Qed.

(** ** The references tab *)

Section References.
Context {urllib : Urllib}.
Import ReferenceTabParser.

Lemma references_loop_app self good after acc rs :
  Forall2 (fun li r => reference_of_item self li = Return r) good rs ->
  references_loop self (good ++ after) acc
  = references_loop self after (acc ++ rs).
Proof.
  intros H. revert acc.
  induction H as [| li r good rs Hr _ IH]; intros acc; cbn [app references_loop].
  - now rewrite app_nil_r.
  - rewrite Hr. cbn [bind]. rewrite IH. now rewrite <- app_assoc.
Qed.

(** When every list item gives a reference, the list of references has
    one reference for each item, in the order of the document. *)
Lemma get_references_all self root ul others rs :
  html_tree self = Some root ->
  xpath_vulnerability_ul root = ul :: others ->
  Forall2 (fun li r => reference_of_item self li = Return r) (children ul) rs ->
  get_references self = Return rs.
Proof.
  intros Htree Hul H. unfold get_references, _get_reference_parent_tag, tree.
  rewrite Htree. cbn [bind]. rewrite Hul. cbn [index0 bind].
  rewrite <- (app_nil_r (children ul)).
  now rewrite (references_loop_app self _ [] [] rs H).
Qed.

(** C5, where the code leaves it. A list item whose link has no text
    behind it gives no reference: adding [None] to the text of the link
    raises [TypeError], and [get_references] raises it for the whole list
    when the items before it gave their references. *)
Theorem get_references_needs_trailing_text
    (self : t) (root ul : element) (others good after : list element)
    (li a_tag : element) (siblings : list element) (rs : list reference) :
  html_tree self = Some root ->
  xpath_vulnerability_ul root = ul :: others ->
  children ul = good ++ li :: after ->
  Forall2 (fun li r => reference_of_item self li = Return r) good rs ->
  children li = a_tag :: siblings ->
  tail a_tag = None ->
  get_references self = Raise TypeError.
Proof.
  intros Htree Hul Hitems Hgood Hli Htail.
  unfold get_references, _get_reference_parent_tag, tree.
  rewrite Htree. cbn [bind]. rewrite Hul. cbn [index0 bind].
  rewrite Hitems, (references_loop_app self good _ _ rs Hgood).
  cbn [references_loop]. unfold reference_of_item.
  rewrite Hli. cbn [index0 bind]. rewrite Htail.
  now destruct (text a_tag).
Qed.
End References.

Lemma get_references_needs_trailing_text_witness :
  @ReferenceTabParser.get_references absolute_urllib
    {| ReferenceTabParser.html_tree := Some sample_references_page;
       ReferenceTabParser.base_url := None |}
  = Raise TypeError.
Proof.
  eapply (@get_references_needs_trailing_text absolute_urllib _
            sample_references_page _ []
            [reference_item "http://wordpress.org/extend/plugins/wassup/changelog/"
                            (Some (lit "WassUp Changelog"))
                            (Some (lit " (WordPress)"))]
            []
            (reference_item "http://wordpress.org/"
                            (Some (lit "WordPress HomePage")) None)).
  - reflexivity.
  - reflexivity.
  - reflexivity.
  - constructor; [reflexivity | constructor].
  - reflexivity.
  - reflexivity.
Defined.

(** ** Reading and writing stored files *)

Section StorageProperties.
Context {items : Items}.
Variable base_path : str.

Lemma _read_policy {A} (schema : Schema A) args st text :
  files st !! Storage._path base_path args = Some (File text) ->
  read_policy schema (Storage._read base_path schema args) args st text.
Proof.
  intros Hfile. unfold read_policy, Storage._read, bindM, read_file.
  rewrite Hfile. split.
  - now intros ->.
  - intros data errs -> Herrs. destruct errs; [congruence | reflexivity].
Qed.

(** C2. For a file that is there, [read_meta], [read_vulnerabilities] and
    [read_versions] log a critical record and return no value, without
    raising, when its text is malformed JSON; and they raise at once when
    the text decodes and the schema reports errors. *)
Theorem read_failure_policy (key producer : str) (st : state) (text : str) :
  (files st !! Storage._path base_path [key; lit "META.json"]
     = Some (File text) ->
   read_policy MetaSchema (Storage.read_meta base_path key)
               [key; lit "META.json"] st text)
  /\ (files st !! Storage._path base_path [key; Storage.vuln_file_name producer]
        = Some (File text) ->
      read_policy VulnerabilityListSchema
                  (Storage.read_vulnerabilities base_path key producer)
                  [key; Storage.vuln_file_name producer] st text)
  /\ (files st !! Storage._path base_path [key; lit "versions.json"]
        = Some (File text) ->
      read_policy VersionListSchema (Storage.read_versions base_path key)
                  [key; lit "versions.json"] st text).
Proof.
  split; [| split]; intros Hfile.
  - exact (_read_policy MetaSchema _ st text Hfile).
  - exact (_read_policy VulnerabilityListSchema _ st text Hfile).
  - exact (_read_policy VersionListSchema _ st text Hfile).
Qed.

Lemma _prepare_path_raises io relative st e st' :
  Storage._prepare_path base_path io relative st = (Raise e, st') ->
  is_io_failure e.
Proof.
  unfold Storage._prepare_path, makedirs, bindM.
  destruct (bool_decide _); [| discriminate].
  destruct (makedirs_errno io); cbn; intros [= <- _]; exact I.
Qed.

Lemma open_for_writing_files io truncate path st r st' :
  open_for_writing io truncate path st = (r, st') ->
  match r with
  | Return _ => exists content, files st' !! path = Some (File content)
                                /\ (truncate = true -> content = [])
  | Raise e => is_io_failure e
  end.
Proof.
  unfold open_for_writing, set_files.
  destruct (files st !! path) as [[content |] |] eqn:Hf;
    destruct (open_errno io); intros [= <- <-]; cbn; try exact I.
  - exists (if truncate then [] else content).
    rewrite lookup_insert_eq. split; [reflexivity | now intros ->].
  - exists []. now rewrite lookup_insert_eq.
Qed.

Lemma write_file_files io path data st r st' content :
  files st !! path = Some (File content) ->
  write_file io path data st = (r, st') ->
  match r with
  | Return _ => files st' !! path = Some (File (content ++ data))
  | Raise e => is_io_failure e
  end.
Proof.
  unfold write_file, set_files, raise. intros Hf.
  destruct (write_errno io); intros [= <- <-]; cbn; [exact I |].
  rewrite Hf. now rewrite lookup_insert_eq.
Qed.

Lemma _write_outcome {A} (schema : Schema A) item_key io item args st :
  let data := fst (@serialize A schema item) in
  let path := Storage._path base_path (item_key item :: args) in
  match Storage._write base_path schema item_key io item args st with
  | (Return _, st') => files st' !! path = Some (File data)
  | (Raise e, _) => is_io_failure e
  end.
Proof.
  intros data path. unfold Storage._write.
  destruct (@serialize A schema item) as [d errs] eqn:Hs.
  subst data. cbn [fst]. unfold bindM at 1.
  destruct (Storage._prepare_path base_path io (item_key item) st)
    as [[[] | e] st1] eqn:H1;
    [| exact (_prepare_path_raises _ _ _ _ _ H1)].
  unfold bindM.
  destruct (open_for_writing io true _ st1) as [[[] | e] st2] eqn:H2;
    pose proof (open_for_writing_files _ _ _ _ _ _ H2) as Ho; cbn in Ho;
    [| exact Ho].
  destruct Ho as [content [Hf Hc]]. rewrite (Hc eq_refl) in Hf.
  destruct (write_file io _ d st2) as [[[] | e] st3] eqn:H3;
    exact (write_file_files _ _ _ _ _ _ _ Hf H3).
Qed.

End StorageProperties.

(** ** The directories are made once *)

Section DirectoriesOnce.
Context {items : Items}.
Variable base_path : str.

Lemma creations_app p l1 l2 :
  creations p (l1 ++ l2) = creations p l1 + creations p l2.
Proof. unfold creations. now rewrite List.filter_app, List.length_app. Qed.

Lemma str_eqb_eq a b : str_eqb a b = true <-> a = b.
Proof. unfold str_eqb. apply bool_decide_eq_true. Qed.

(** What [_prepare_path] does to the set and to the calls. *)
Lemma _prepare_path_effect io p st :
  let st' := snd (Storage._prepare_path base_path io p st) in
  (p ∈ known st -> st' = st)
  /\ (p ∉ known st ->
      trace st' = trace st ++ [makedirs_call_for base_path p io]
      /\ known st' = (match makedirs_errno io with
                      | None => known st ∪ {[p]}
                      | Some _ => known st
                      end)).
Proof.
  unfold Storage._prepare_path, makedirs_call_for, makedirs, bindM. split.
  - intros Hin. rewrite bool_decide_eq_false_2; [reflexivity |].
    intros Hn. now apply Hn.
  - intros Hn. rewrite bool_decide_eq_true_2 by exact Hn.
    destruct (makedirs_errno io); cbn; split; reflexivity.
Qed.

Lemma _prepare_path_known_made io p st :
  known_made st ->
  known_made (snd (Storage._prepare_path base_path io p st)).
Proof.
  intros Hinv. destruct (_prepare_path_effect io p st) as [Hin Hout].
  destruct (decide (p ∈ known st)) as [Hp | Hp];
    [now rewrite (Hin Hp) |].
  destruct (Hout Hp) as [Htr Hkn]. intros q.
  rewrite Htr, Hkn, creations_app, (Hinv q). unfold creations, makedirs_call_for.
  cbn [List.filter call_done call_relative].
  destruct (makedirs_errno io) as [errno |]; cbn [andb length].
  - now rewrite Nat.add_0_r.
  - destruct (str_eqb p q) eqn:Hpq; cbn [length].
    + apply str_eqb_eq in Hpq as <-.
      rewrite (bool_decide_eq_false_2 _ Hp).
      rewrite bool_decide_eq_true_2; [reflexivity |].
      apply elem_of_union. right. now apply elem_of_singleton.
    + assert (p <> q) by (intros ->; rewrite (proj2 (str_eqb_eq q q) eq_refl) in Hpq;
                          discriminate).
      rewrite Nat.add_0_r.
      rewrite (bool_decide_ext (q ∈ known st ∪ {[p]}) (q ∈ known st));
        [reflexivity |].
      rewrite elem_of_union, elem_of_singleton. intuition congruence.
Qed.

Lemma open_for_writing_same io truncate path st :
  same_known_trace st (snd (open_for_writing io truncate path st)).
Proof.
  unfold open_for_writing.
  destruct (files st !! path) as [[|]|], (open_errno io); now split.
Qed.

Lemma write_file_same io path data st :
  same_known_trace st (snd (write_file io path data st)).
Proof. unfold write_file. destruct (write_errno io); now split. Qed.

Lemma _read_same {A} (schema : Schema A) args st :
  same_known_trace st (snd (Storage._read base_path schema args st)).
Proof.
  unfold Storage._read, bindM, read_file.
  destruct (files st !! _) as [[text |] |]; try now split.
  destruct (@loads A schema text) as [[data errs] | e].
  - destruct (truthy errs); now split.
  - destruct e; now split.
Qed.

Lemma known_made_same st st' :
  same_known_trace st st' -> known_made st -> known_made st'.
Proof. intros [Hk Ht] H p. now rewrite Hk, Ht. Qed.

Lemma prepare_then_write_trace io p path truncate data st :
  let st1 := snd (Storage._prepare_path base_path io p st) in
  same_known_trace st1 (snd (prepare_then_write base_path io p path truncate data st)).
Proof.
  unfold prepare_then_write, bindM.
  destruct (Storage._prepare_path base_path io p st) as [[[] | e] st1];
    cbn [snd]; [| now split].
  pose proof (open_for_writing_same io truncate path st1) as Ho.
  destruct (open_for_writing io truncate path st1) as [[[] | e] st2];
    cbn [snd] in *; [| exact Ho].
  pose proof (write_file_same io path data st2) as Hw.
  destruct Ho as [Hk Ht], Hw as [Hk' Ht']. split; congruence.
Qed.

Lemma perform_shape c io st :
  match Storage.target c with
  | Some p =>
      same_known_trace (snd (Storage._prepare_path base_path io p st))
                       (snd (Storage.perform base_path c io st))
  | None => same_known_trace st (snd (Storage.perform base_path c io st))
  end.
Proof.
  destruct c as [meta | vlist | vlist | relative content | key | key prod | key];
    cbn [Storage.target Storage.perform].
  - unfold Storage.write_meta, Storage._write.
    destruct (serialize meta) as [data errs].
    apply (prepare_then_write_trace io (meta_key meta) _ true data st).
  - unfold Storage.write_vulnerabilities, Storage._write.
    destruct (serialize vlist) as [data errs].
    apply (prepare_then_write_trace io (vulnerabilities_key vlist) _ true data st).
  - unfold Storage.write_versions, Storage._write.
    destruct (serialize vlist) as [data errs].
    apply (prepare_then_write_trace io (versions_key vlist) _ true data st).
  - apply (prepare_then_write_trace io (dirname relative) _ false _ st).
  - unfold Storage.forget, Storage.read_meta, bindM.
    pose proof (_read_same MetaSchema [key; lit "META.json"] st) as H.
    now destruct (Storage._read _ _ _ st) as [[v | e] st'].
  - unfold Storage.forget, Storage.read_vulnerabilities, bindM.
    pose proof (_read_same VulnerabilityListSchema
                           [key; Storage.vuln_file_name prod] st) as H.
    now destruct (Storage._read _ _ _ st) as [[v | e] st'].
  - unfold Storage.forget, Storage.read_versions, bindM.
    pose proof (_read_same VersionListSchema [key; lit "versions.json"] st) as H.
    now destruct (Storage._read _ _ _ st) as [[v | e] st'].
Qed.

Lemma perform_known_made c io st :
  known_made st -> known_made (snd (Storage.perform base_path c io st)).
Proof.
  intros Hinv. pose proof (perform_shape c io st) as Hs.
  destruct (Storage.target c) as [p |].
  - apply (known_made_same _ _ Hs). now apply _prepare_path_known_made.
  - now apply (known_made_same _ _ Hs).
Qed.

Lemma run_known_made calls st :
  known_made st -> known_made (Storage.run base_path calls st).
Proof.
  revert st. induction calls as [| [c io] calls IH]; intros st Hinv;
    [exact Hinv |].
  cbn [Storage.run]. apply IH. now apply perform_known_made.
Qed.

(** C7. Over any sequence of calls of an instance, [makedirs] makes the
    directory of a relative path at most once, and the path is in [known]
    exactly when it was made.  A call for a path that is in [known] makes
    no call of [makedirs]; a call for a path that is not makes one, with
    the parents, mode [0o755] and [exist_ok], before anything else, and the
    path is in [known] afterwards when [makedirs] did not raise. *)
Theorem directories_are_made_once (disk : gmap str fnode)
    (calls : list (Storage.call * io_env)) (p : str) :
  let st := Storage.run base_path calls (Storage.__init__ disk) in
  creations p (trace st) <= 1
  /\ (p ∈ known st <-> creations p (trace st) = 1)
  /\ (forall c io st0,
        Storage.target c = Some p -> p ∈ known st0 ->
        trace (snd (Storage.perform base_path c io st0)) = trace st0
        /\ known (snd (Storage.perform base_path c io st0)) = known st0)
  /\ (forall c io st0,
        Storage.target c = Some p -> p ∉ known st0 ->
        trace (snd (Storage.perform base_path c io st0))
        = trace st0 ++ [makedirs_call_for base_path p io]
        /\ (makedirs_errno io = None ->
            p ∈ known (snd (Storage.perform base_path c io st0)))).
Proof.
  intros st.
  assert (Hinv : known_made st).
  { apply run_known_made. intros q. cbn.
    rewrite bool_decide_eq_false_2; [reflexivity |].
    apply not_elem_of_empty. }
  split; [| split; [| split]].
  - rewrite (Hinv p). destruct (bool_decide _); lia.
  - rewrite (Hinv p). destruct (decide (p ∈ known st)) as [H | H].
    + rewrite (bool_decide_eq_true_2 _ H). tauto.
    + rewrite (bool_decide_eq_false_2 _ H). split; [tauto | discriminate].
  - intros c io st0 Ht Hin. pose proof (perform_shape c io st0) as Hs.
    rewrite Ht in Hs. destruct (_prepare_path_effect io p st0) as [Hsame _].
    cbn zeta in Hsame. rewrite (Hsame Hin) in Hs. destruct Hs as [Hk Htr].
    now split.
  - intros c io st0 Ht Hout. pose proof (perform_shape c io st0) as Hs.
    rewrite Ht in Hs. destruct (_prepare_path_effect io p st0) as [_ Hnew].
    destruct (Hnew Hout) as [Htr Hkn]. destruct Hs as [Hk Htr'].
    split; [congruence |].
    intros Hok. rewrite Hk, Hkn, Hok.
    apply elem_of_union. right. now apply elem_of_singleton.
Qed.
End DirectoriesOnce.

(** ** What a write does *)







Section WritePolicy.
Context {items : Items}.
Variable base_path : str.





End WritePolicy.

(** ** The files of [list_vulnerabilities] *)

Lemma take_while_split p s :
  s = take_while p s ++ skipn (length (take_while p s)) s.
Proof.
  induction s as [| c s IH]; [reflexivity |].
  simpl. destruct (p c); [| reflexivity]. simpl. now rewrite <- IH.
Qed.

Lemma take_while_all p s : forallb p (take_while p s) = true.
Proof.
  induction s as [| c s IH]; [reflexivity |].
  simpl. destruct (p c) eqn:Hc; [| reflexivity]. simpl. now rewrite Hc.
Qed.

Lemma take_while_stop p w c r :
  forallb p w = true -> p c = false -> take_while p (w ++ c :: r) = w.
Proof.
  intros Hw Hc. induction w as [| a w IH]; simpl.
  - now rewrite Hc.
  - simpl in Hw. apply andb_true_iff in Hw as [Ha Hw].
    now rewrite Ha, (IH Hw).
Qed.

Lemma ends_with_newline_app s : ends_with_newline (s ++ [LF]) = true.
Proof. unfold ends_with_newline. now rewrite rev_app_distr. Qed.

(** The pattern matches the names [vuln-<word>.json], and these names
    followed by a newline. *)
Lemma name_format_match_spec name w :
  name_format_match name = Some w
  <-> (is_vuln_word_json name w
       \/ (name = lit "vuln-" ++ w ++ lit ".json" ++ [LF]
           /\ w <> [] /\ forallb isword w = true)).
Proof.
  unfold name_format_match, is_vuln_word_json. split.
  - destruct (startswith (lit "vuln-") name) eqn:Hs; [| discriminate].
    apply startswith_spec in Hs as [rest ->].
    change (skipn 5 (lit "vuln-" ++ rest)) with rest.
    pose proof (take_while_split isword rest) as Hsplit.
    pose proof (take_while_all isword rest) as Hall.
    destruct (take_while isword rest) as [| a g] eqn:Hg; [discriminate |].
    cbn [length Nat.eqb negb andb] in *.
    destruct (str_eqb _ (lit ".json")) eqn:H1.
    + intros [= <-]. left. apply bool_decide_eq_true in H1.
      rewrite H1 in Hsplit. rewrite Hsplit at 1. repeat split; congruence.
    + destruct (str_eqb _ (lit ".json" ++ [LF])) eqn:H2; [| discriminate].
      intros [= <-]. right. apply bool_decide_eq_true in H2.
      rewrite H2 in Hsplit. rewrite Hsplit at 1. repeat split; congruence.
  - assert (Hgo : forall after,
               w <> [] -> forallb isword w = true ->
               after = lit ".json" \/ after = lit ".json" ++ [LF] ->
               (if startswith (lit "vuln-") (lit "vuln-" ++ w ++ after)
                then
                  let rest := skipn 5 (lit "vuln-" ++ w ++ after) in
                  let group1 := take_while isword rest in
                  let after' := skipn (length group1) rest in
                  if negb (length group1 =? 0)
                     && (str_eqb after' (lit ".json")
                         || str_eqb after' (lit ".json" ++ [LF]))
                  then Some group1 else None
                else None) = Some w).
    { intros after Hne Hw Hafter.
      rewrite (proj2 (startswith_spec _ _)) by now exists (w ++ after).
      change (skipn 5 (lit "vuln-" ++ w ++ after)) with (w ++ after).
      assert (Ht : take_while isword (w ++ after) = w).
      { destruct Hafter as [-> | ->]; now apply take_while_stop. }
      cbn zeta. rewrite Ht, skipn_app, Nat.sub_diag, skipn_all. cbn [app skipn].
      destruct w as [| a w']; [congruence |]. cbn [length Nat.eqb negb andb].
      unfold str_eqb.
      destruct Hafter as [-> | ->].
      - now rewrite bool_decide_eq_true_2.
      - rewrite (bool_decide_eq_true_2 (_ = lit ".json" ++ [LF])) by reflexivity.
        now rewrite orb_true_r. }
    intros [[-> [Hne Hw]] | [-> [Hne Hw]]]; apply Hgo; auto.
Qed.

Lemma name_format_match_without_newline name w :
  ends_with_newline name = false ->
  name_format_match name = Some w <-> is_vuln_word_json name w.
Proof.
  intros Hnl. rewrite name_format_match_spec. split; [| now left].
  intros [H | [-> _]]; [exact H |].
  rewrite !app_assoc, ends_with_newline_app in Hnl. discriminate.
Qed.

Section ListVulnerabilities.
Context {items : Items}.
Variable base_path : str.

Lemma list_vulnerabilities_loop_spec key entries :
  Forall (fun entry => ends_with_newline (name entry) = false) entries ->
  exists words,
    matching_words entries words
    /\ forall st, Storage.list_vulnerabilities_loop base_path key entries st
                  = read_each base_path key words st.
Proof.
  induction 1 as [| entry entries Hnl _ [words [Hm Hloop]]].
  - exists []. split; [constructor | reflexivity].
  - cbn [Storage.list_vulnerabilities_loop].
    destruct (name_format_match (name entry)) as [w |] eqn:Hw.
    + apply (name_format_match_without_newline _ _ Hnl) in Hw.
      destruct (is_dir entry) eqn:Hd; cbn [negb].
      * exists words. split; [apply matching_other; auto | exact Hloop].
      * exists (w :: words). split; [now apply matching_file |].
        intros st. cbn [read_each].
        destruct (Storage.read_vulnerabilities base_path key w st)
          as [[v | e] st']; [| reflexivity].
        now rewrite Hloop.
    + exists words. split; [| exact Hloop].
      apply matching_other; [| exact Hm]. right. intros w Hjson.
      apply (name_format_match_without_newline _ _ Hnl) in Hjson. congruence.
Qed.

(** C6, as the code has it. When the directory of the key can be
    scanned and no name in it ends with a newline, [list_vulnerabilities]
    reads, in the order of the scan, [read_vulnerabilities(key, word)] for
    each entry that is no directory and is named [vuln-<word>.json], and
    nothing for any other entry: it yields what these reads return, up to
    the first one that raises.  The file that is read for a word is
    [vuln-<word in lower case>.json], which is the file of the entry when
    the word has no upper case letter. *)
Theorem list_vulnerabilities_reads_matching_files
    (key : str) (st : state) (entries : list dir_entry) :
  scandir (Storage._path base_path [key]) st = (Return entries, st) ->
  Forall (fun entry => ends_with_newline (name entry) = false) entries ->
  exists words,
    matching_words entries words
    /\ Storage.list_vulnerabilities base_path key st = read_each base_path key words st
    /\ (forall w, Storage.read_vulnerabilities base_path key w
                  = Storage._read base_path VulnerabilityListSchema
                      [key; lit "vuln-" ++ lower w ++ lit ".json"])
    /\ (forall entry w, is_vuln_word_json (name entry) w -> lower w = w ->
                        Storage.vuln_file_name w = name entry).
Proof.
  intros Hscan Hnl.
  destruct (list_vulnerabilities_loop_spec key entries Hnl) as [words [Hm Hloop]].
  exists words. split; [exact Hm | split; [| split]].
  - unfold Storage.list_vulnerabilities. rewrite Hscan. apply Hloop.
  - reflexivity.
  - intros entry w [-> _] Hlow. unfold Storage.vuln_file_name. now rewrite Hlow.
Qed.
End ListVulnerabilities.

(** ** The properties on the samples *)

Lemma free_text_extraction_witness :
  ExploitTabParser.get_exploit_description
    {| ExploitTabParser.html_tree := Some sample_exploit_page |} = Return None
  /\ SolutionTabParser.get_solution
       {| SolutionTabParser.html_tree := Some sample_exploit_page |}
     = Return (Some (lit "Currently, we are not aware of any working exploits."
                     ++ lit " If you feel we are in error, mail us."))
  /\ DiscussionTabParser.get_discussion
       {| DiscussionTabParser.html_tree := Some sample_exploit_page |}
     = Return (lit "Currently, we are not aware of any working exploits."
               ++ lit " If you feel we are in error, mail us.").
Proof.
  pose proof (free_text_extraction sample_exploit_page) as H.
  change (xpath_vulnerability_div sample_exploit_page) with [sample_section] in H.
  cbv beta iota zeta in H.
  destruct H as (He & _ & _ & Hs & Hd).
  split; [| split].
  - apply He. eexists. split; [left; reflexivity |].
    exists [LF; TAB], (lit "  If you feel we are in error, mail us.").
    reflexivity.
  - rewrite Hs; [reflexivity |]. intros [t [Hin Hsub]].
    apply contains_spec in Hsub.
    destruct Hin as [<- | [<- | []]]; vm_compute in Hsub; discriminate Hsub.
  - rewrite Hd. reflexivity.
Defined.

Lemma read_failure_policy_witness :
  @Storage.read_meta sample_items (lit "data") (lit "wordpress") sample_disk
  = (Return None,
     logged_decode_error [lit "wordpress"; lit "META.json"] sample_disk)
  /\ @Storage.read_versions sample_items (lit "data") (lit "wordpress") sample_disk
     = (Raise (Exception_ [lit "wordpress"; lit "versions.json"] key_is_required),
        sample_disk).
Proof.
  split.
  - destruct (@read_failure_policy sample_items (lit "data") (lit "wordpress") []
                sample_disk (lit "<html>")) as (H & _).
    apply (proj1 (H eq_refl)). reflexivity.
  - destruct (@read_failure_policy sample_items (lit "data") (lit "wordpress") []
                sample_disk (lit "{}")) as (_ & _ & H).
    apply (proj2 (H eq_refl) {| item_key := []; item_producer := [];
                                item_body := lit "{}" |} key_is_required);
      [reflexivity | discriminate].
Defined.

Lemma list_vulnerabilities_reads_matching_files_witness :
  exists words,
    matching_words (entries_of (files sample_disk) (lit "data/plugins")) words
    /\ @Storage.list_vulnerabilities sample_items (lit "data") (lit "plugins")
         sample_disk
       = @read_each sample_items (lit "data") (lit "plugins") words sample_disk
    /\ (forall w, @Storage.read_vulnerabilities sample_items (lit "data")
                    (lit "plugins") w
                  = Storage._read (lit "data") sample_schema
                      [lit "plugins"; lit "vuln-" ++ lower w ++ lit ".json"])
    /\ (forall entry w, is_vuln_word_json (name entry) w -> lower w = w ->
                        Storage.vuln_file_name w = name entry).
Proof.
  apply (@list_vulnerabilities_reads_matching_files sample_items (lit "data")
           (lit "plugins") sample_disk).
  - reflexivity.
  - vm_compute. repeat constructor.
Defined.

(** What the sample gives: the one list of the directory [plugins]. *)
Lemma list_vulnerabilities_of_plugins :
  fst (@Storage.list_vulnerabilities sample_items (lit "data") (lit "plugins")
         sample_disk)
  = ([Some {| item_key := []; item_producer := [];
              item_body := lit "{key: plugins}" |}], None).
Proof. vm_compute. reflexivity. Qed.

(** C6, as the specification words it, fails: the directory [wordpress]
    has one file whose name has the pattern, [vuln-ABC.json], and its text
    decodes without errors; but the read is for [vuln-abc.json], which is not
    there, and the enumeration ends with [FileNotFoundError] and no entry. *)
Lemma list_vulnerabilities_reads_lower_case_name :
  is_vuln_word_json (lit "vuln-ABC.json") (lit "ABC")
  /\ files sample_disk !! lit "data/wordpress/vuln-ABC.json"
     = Some (File (lit "{key: wordpress}"))
  /\ @loads _ sample_schema (lit "{key: wordpress}")
     = Return ({| item_key := []; item_producer := [];
                  item_body := lit "{key: wordpress}" |}, [])
  /\ map name (entries_of (files sample_disk) (lit "data/wordpress"))
     = [lit "versions.json"; lit "vuln-ABC.json"; lit "META.json"]
  /\ fst (@Storage.list_vulnerabilities sample_items (lit "data")
            (lit "wordpress") sample_disk)
     = ([], Some FileNotFoundError).
Proof.
  split; [| split; [| split; [| split]]]; try (vm_compute; reflexivity).
  repeat split. discriminate.
Qed.

Lemma directories_are_made_once_witness :
  let st := @Storage.run sample_items (lit "data") two_appends
                        (Storage.__init__ ∅) in
  creations (lit "logs") (trace st) = 1
  /\ trace st = [makedirs_call_for (lit "data") (lit "logs") io_ok]
  /\ files st !! lit "data/logs/run.log"
     = Some (File (lit "first" ++ [LF] ++ lit "second" ++ [LF])).
Proof.
  cbv zeta.
  destruct (@directories_are_made_once sample_items (lit "data") ∅ two_appends
              (lit "logs")) as (_ & Hknown & _).
  split; [| split].
  - apply Hknown. refine (bool_decide_unpack _ _). vm_compute. exact I.
  - reflexivity.
  - vm_compute. reflexivity.
Defined.


(** * Further properties *)

(** ** Trimming and normalising *)

Lemma ends_with_space_cons c d s :
  ends_with_space (c :: d :: s) = ends_with_space (d :: s).
Proof. reflexivity. Qed.

Lemma rstrip_ends s : ends_with_space (rstrip_by isspace s) = false.
Proof.
  induction s as [| c s IH]; [reflexivity |].
  simpl. destruct (rstrip_by isspace s) as [| d r] eqn:E.
  - destruct (isspace c) eqn:Hc; [reflexivity | exact Hc].
  - now rewrite ends_with_space_cons.
Qed.

Lemma rstrip_fixed s : ends_with_space s = false -> rstrip_by isspace s = s.
Proof.
  induction s as [| c s IH]; [reflexivity |].
  destruct s as [| d s'].
  - simpl. now intros ->.
  - rewrite ends_with_space_cons. intros H. specialize (IH H).
    change (rstrip_by isspace (c :: d :: s'))
      with (match rstrip_by isspace (d :: s') with
            | [] => if isspace c then [] else [c]
            | r => c :: r
            end).
    now rewrite IH.
Qed.

Lemma rstrip_starts s :
  starts_with_space s = false ->
  starts_with_space (rstrip_by isspace s) = false.
Proof.
  destruct s as [| c s]; [reflexivity |].
  cbn [starts_with_space]. intros Hc.
  destruct (rstrip_by_head isspace c s Hc) as [r ->]. exact Hc.
Qed.

Lemma lstrip_starts s : starts_with_space (lstrip_by isspace s) = false.
Proof.
  pose proof (lstrip_by_head isspace s) as H.
  now destruct (lstrip_by isspace s).
Qed.

Lemma strip_trimmed s : trimmed (strip s).
Proof.
  unfold trimmed, strip, strip_by. split.
  - apply rstrip_starts, lstrip_starts.
  - apply rstrip_ends.
Qed.

Lemma strip_fixed s : trimmed s -> strip s = s.
Proof.
  intros [Hs He]. unfold strip, strip_by.
  rewrite (lstrip_by_fixed isspace s).
  - now apply rstrip_fixed.
  - now destruct s.
Qed.

Lemma visible_re_sub b s : visible (re_sub_from b s) = visible s.
Proof.
  unfold visible. revert b. induction s as [| c s IH]; intros b; [reflexivity |].
  cbn [re_sub_from List.filter]. destruct (isspace c) eqn:Hc; cbn [negb].
  - destruct b; [apply IH |].
    destruct (starts_with_space s); cbn [List.filter].
    + rewrite isspace_SPACE. cbn [negb]. apply IH.
    + rewrite Hc. cbn [negb]. apply IH.
  - cbn [List.filter]. rewrite Hc. cbn [negb]. now rewrite IH.
Qed.

Lemma visible_lstrip s : visible (lstrip_by isspace s) = visible s.
Proof.
  unfold visible. induction s as [| c s IH]; [reflexivity |].
  cbn [lstrip_by List.filter]. destruct (isspace c) eqn:Hc; cbn [negb].
  - exact IH.
  - cbn [List.filter]. now rewrite Hc.
Qed.

Lemma visible_rstrip s : visible (rstrip_by isspace s) = visible s.
Proof.
  unfold visible. induction s as [| c s IH]; [reflexivity |].
  cbn [rstrip_by List.filter]. rewrite <- IH.
  destruct (rstrip_by isspace s) as [| d r].
  - destruct (isspace c) eqn:Hc; cbn [negb List.filter]; [reflexivity |].
    now rewrite Hc.
  - reflexivity.
Qed.

(** X1. [strip_whitespaces] only touches whitespace: the characters of the
    text that are no whitespace are all kept, in their order. *)
Theorem strip_whitespaces_keeps_visible (s : str) :
  visible (strip_whitespaces s) = visible s.
Proof.
  unfold strip_whitespaces, strip, strip_by, re_sub_spaces.
  now rewrite visible_rstrip, visible_lstrip, visible_re_sub.
Qed.

(** X2. The result of [strip_whitespaces] is normalised: it has no
    whitespace at its ends and no two whitespace characters in a row.  The
    texts that [strip_whitespaces] leaves as they are, are exactly the
    normalised ones. *)
Theorem strip_whitespaces_normal_form (s : str) :
  normalized (strip_whitespaces s)
  /\ (strip_whitespaces s = s <-> normalized s).
Proof.
  assert (Hn : forall t, normalized (strip_whitespaces t)).
  { intros t. split; [apply no_space_pair_strip_whitespaces |].
    unfold strip_whitespaces. apply strip_trimmed. }
  split; [apply Hn | split].
  - intros H. rewrite <- H. apply Hn.
  - intros [Hp Ht]. unfold strip_whitespaces, re_sub_spaces.
    rewrite (re_sub_fixed s Hp). now apply strip_fixed.
Qed.

(** ** More of the info tab *)

(** X3. A field that [_parse_element] returns is never an empty string and
    never has whitespace at its ends. *)
Theorem _parse_element_gives_trimmed_text (self : InfoTabParser.t)
    (label value : str) :
  InfoTabParser._parse_element self label = Return (Some value) ->
  value <> [] /\ trimmed value.
Proof.
  unfold InfoTabParser._parse_element.
  destruct (InfoTabParser.tree self) as [root | e]; [| discriminate].
  cbn [bind].
  destruct (index0 (xpath_label_value label root)) as [first | e];
    [| discriminate].
  cbn [bind]. destruct (strip first) as [| c u] eqn:E; [discriminate |].
  cbn [length Nat.eqb]. intros [= <-]. split; [discriminate |].
  rewrite <- E. apply strip_trimmed.
Qed.

Lemma _parse_element_gives_trimmed_text_witness :
  lit "92841" <> [] /\ trimmed (lit "92841").
Proof.
  apply (_parse_element_gives_trimmed_text (info_parser sample_info_page)
           (lit "Bugtraq ID:")).
  reflexivity.
Defined.

(** X4. The version lists never raise for a page that is set: each version
    is a text node of the cell, trimmed and not empty, and a row that is
    missing gives the empty list. *)
Theorem version_lists_are_trimmed (self : InfoTabParser.t) (root : element)
    (vulnerable : bool) :
  InfoTabParser.html_tree self = Some root ->
  let label := if vulnerable then lit "Vulnerable:" else lit "Not Vulnerable:" in
  exists versions,
    InfoTabParser._get_version_list self vulnerable = Return versions
    /\ Forall (fun v => v <> [] /\ trimmed v
                        /\ exists t, In t (xpath_label_value label root)
                                     /\ v = strip t) versions
    /\ length versions <= length (xpath_label_value label root)
    /\ (row_missing label root -> versions = []).
Proof.
  intros Htree label. unfold InfoTabParser._get_version_list, InfoTabParser.tree.
  rewrite Htree. cbn [bind].
  assert (Hsame : (if vulnerable then xpath_label_value (lit "Vulnerable:") root
                   else xpath_label_value (lit "Not Vulnerable:") root)
                  = xpath_label_value label root) by now destruct vulnerable.
  rewrite Hsame. eexists. split; [reflexivity |]. split; [| split].
  - apply List.Forall_forall. intros v Hv.
    apply in_map_iff in Hv as [t [<- Ht]].
    apply List.filter_In in Ht as [Ht Hlen].
    split; [| split; [apply strip_trimmed | now exists t]].
    intros E. rewrite E in Hlen. discriminate.
  - rewrite length_map. apply List.filter_length_le.
  - intros Hmiss. now rewrite (row_missing_no_value _ _ Hmiss).
Qed.

Lemma version_lists_are_trimmed_witness :
  InfoTabParser.get_vulnerable_versions (info_parser sample_versions_page)
  = Return [lit "WordPress WordPress  4.5.3"; lit "WordPress WordPress 4.5.2"]
  /\ InfoTabParser.get_not_vulnerable_versions (info_parser sample_versions_page)
     = Return []
  /\ exists versions,
       InfoTabParser._get_version_list (info_parser sample_info_page) true
       = Return versions
       /\ Forall (fun v => v <> [] /\ trimmed v
                           /\ exists t, In t (xpath_label_value
                                                (lit "Vulnerable:")
                                                sample_info_page)
                                        /\ v = strip t) versions
       /\ length versions
          <= length (xpath_label_value (lit "Vulnerable:") sample_info_page)
       /\ (row_missing (lit "Vulnerable:") sample_info_page -> versions = []).
Proof.
  split; [reflexivity | split; [reflexivity |]].
  exact (version_lists_are_trimmed (info_parser sample_info_page)
           sample_info_page true eq_refl).
Defined.

Lemma fold_add_cve cs ids x :
  x ∈ fold_left InfoTabParser.add_cve cs ids
  <-> x ∈ ids \/ exists c u, In c cs /\ tail c = Some u
                             /\ strip u = x /\ x <> [].
Proof.
  revert ids. induction cs as [| c cs IH]; intros ids; cbn [fold_left].
  - split; [now left | intros [H | (c & u & [] & _)]; exact H].
  - rewrite IH. unfold InfoTabParser.add_cve. split.
    + intros [H | (c' & u & Hc & Hu)].
      * destruct (tail c) as [u |] eqn:Ht; [| now left].
        destruct (strip u) as [| a w] eqn:Hs; cbn [length Nat.eqb negb] in H;
          [now left |].
        apply elem_of_union in H as [H | H]; [now left |].
        apply elem_of_singleton in H as ->. right. exists c, u.
        split; [now left | split; [exact Ht | split; [exact Hs | discriminate]]].
      * right. exists c', u. split; [now right | exact Hu].
    + intros [H | (c' & u & [<- | Hc] & Ht & Hs & Hne)].
      * left. destruct (tail c) as [u |]; [| exact H].
        destruct (negb _); [| exact H]. apply elem_of_union. now left.
      * left. rewrite Ht, Hs. destruct x as [| a w]; [congruence |].
        cbn [length Nat.eqb negb]. apply elem_of_union. right.
        now apply elem_of_singleton.
      * right. now exists c', u.
Qed.

(** X5. [get_cve_id] gives every identifier of the cell once.  When the
    first text of the cell is blank the list is empty, whatever follows the
    line breaks; otherwise the list has, without repetition, the trimmed
    first text and the trimmed tails of the children that are not blank.
    A cell without a first text raises [AttributeError]. *)
Theorem get_cve_id_gives_each_id_once (self : InfoTabParser.t)
    (root td_element : element) (others : list element) :
  InfoTabParser.html_tree self = Some root ->
  xpath_label_cell (lit "CVE:") root = td_element :: others ->
  match text td_element with
  | None => InfoTabParser.get_cve_id self = Raise AttributeError
  | Some t =>
      exists ids,
        InfoTabParser.get_cve_id self = Return ids
        /\ NoDup ids
        /\ (strip t = [] -> ids = [])
        /\ (strip t <> [] ->
            forall x, In x ids <-> x = strip t \/ cve_fragment td_element x)
  end.
Proof.
  intros Htree Hcell. unfold InfoTabParser.get_cve_id, InfoTabParser.tree.
  rewrite Htree. cbn [bind]. rewrite Hcell. cbn [index0 bind].
  destruct (text td_element) as [t |]; [| reflexivity].
  cbn [InfoTabParser.strip_text bind].
  destruct (strip t) as [| a w] eqn:Hs; cbn [length Nat.eqb].
  - exists []. split; [reflexivity |]. split; [constructor |].
    split; [reflexivity | congruence].
  - eexists. split; [reflexivity |]. split; [apply NoDup_elements |].
    split; [discriminate |]. intros _ x.
    rewrite <- list_elem_of_In, elem_of_elements, fold_add_cve.
    now rewrite elem_of_singleton.
Qed.

Lemma sample_cve_cell_found :
  xpath_label_cell (lit "CVE:") sample_versions_page = [sample_cve_cell].
Proof. vm_compute. reflexivity. Qed.

Lemma get_cve_id_gives_each_id_once_witness :
  exists ids,
    InfoTabParser.get_cve_id (info_parser sample_versions_page) = Return ids
    /\ NoDup ids
    /\ length ids = 2
    /\ In (lit "CVE-2016-6897") ids /\ In (lit "CVE-2016-6896") ids.
Proof.
  pose proof (get_cve_id_gives_each_id_once (info_parser sample_versions_page)
                sample_versions_page sample_cve_cell [] eq_refl
                sample_cve_cell_found) as H.
  change (text sample_cve_cell) with (Some ([LF; TAB] ++ lit "CVE-2016-6897")) in H.
  destruct H as (ids & Hids & Hnd & _ & Hin).
  exists ids. split; [exact Hids | split; [exact Hnd |]].
  split.
  - vm_compute in Hids. injection Hids as <-. reflexivity.
  - split; apply Hin.
    + discriminate.
    + now left.
    + discriminate.
    + right. exists (Element (lit "br") [] None []
                       (Some ([LF; TAB] ++ lit "CVE-2016-6896" ++ [LF]))),
        ([LF; TAB] ++ lit "CVE-2016-6896" ++ [LF]).
      split; [left; reflexivity |]. split; [reflexivity |].
      split; [reflexivity | discriminate].
Defined.

(** ** More of the references tab *)

Section MoreReferences.
Context {urllib : Urllib}.
Import ReferenceTabParser.

Lemma references_loop_raises self items acc e :
  references_loop self items acc = Raise e ->
  exists good li after rs,
    items = good ++ li :: after
    /\ Forall2 (fun li r => reference_of_item self li = Return r) good rs
    /\ reference_of_item self li = Raise e.
Proof.
  revert acc. induction items as [| li items IH]; intros acc; [discriminate |].
  cbn [references_loop].
  destruct (reference_of_item self li) as [r | e'] eqn:Hr; cbn [bind].
  - intros H. destruct (IH _ H) as (good & li' & after & rs & -> & Hgood & He).
    exists (li :: good), li', after, (r :: rs).
    split; [reflexivity | split; [now constructor | exact He]].
  - intros [= <-]. exists [], li, items, [].
    split; [reflexivity | split; [constructor | exact Hr]].
Qed.

Lemma references_loop_returns self items acc rs :
  references_loop self items acc = Return rs ->
  exists new, rs = acc ++ new
              /\ Forall2 (fun li r => reference_of_item self li = Return r)
                         items new.
Proof.
  revert acc. induction items as [| li items IH]; intros acc;
    cbn [references_loop].
  - intros [= <-]. exists []. split; [now rewrite app_nil_r | constructor].
  - destruct (reference_of_item self li) as [r | e] eqn:Hr; cbn [bind];
      [| discriminate].
    intros H. destruct (IH _ H) as (new & -> & Hnew).
    exists (r :: new). split; [now rewrite <- app_assoc | now constructor].
Qed.

(** X6. [get_references] returns a list exactly when every item of the
    list of the page gives a reference, and then it has one reference for
    each item, in the order of the document.  It raises exactly when some
    item does, and then with the exception of the first such item. *)
Theorem get_references_follows_the_items (self : t) (root ul : element)
    (others : list element) :
  html_tree self = Some root ->
  xpath_vulnerability_ul root = ul :: others ->
  (forall rs, get_references self = Return rs
              <-> Forall2 (fun li r => reference_of_item self li = Return r)
                          (children ul) rs)
  /\ (forall e, get_references self = Raise e
                <-> exists good li after rs,
                      children ul = good ++ li :: after
                      /\ Forall2 (fun li r => reference_of_item self li = Return r)
                                 good rs
                      /\ reference_of_item self li = Raise e).
Proof.
  intros Htree Hul.
  assert (Hget : get_references self = references_loop self (children ul) []).
  { unfold get_references, _get_reference_parent_tag, tree.
    rewrite Htree. cbn [bind]. now rewrite Hul. }
  rewrite Hget. split.
  - intros rs. split.
    + intros H. destruct (references_loop_returns _ _ _ _ H) as (new & -> & Hnew).
      exact Hnew.
    + intros H. rewrite <- (app_nil_r (children ul)).
      now rewrite (references_loop_app self _ [] [] rs H).
  - intros e. split; [apply references_loop_raises |].
    intros (good & li & after & rs & -> & Hgood & He).
    rewrite (references_loop_app self good _ _ rs Hgood).
    cbn [references_loop]. now rewrite He.
Qed.

(** X7. A reference that a list item gives has, as its description, the
    text of the first child of the item followed by its tail, and as its
    URL the first [href] of the links of the item: as it is when it has a
    network location or the parser has no base URL, joined to the base URL
    otherwise. *)
Theorem reference_of_item_parts (self : t) (li : element) (r : reference) :
  reference_of_item self li = Return r ->
  exists a_tag siblings a_text a_tail href hrefs,
    children li = a_tag :: siblings
    /\ text a_tag = Some a_text /\ tail a_tag = Some a_tail
    /\ description r = a_text ++ a_tail
    /\ xpath_a_href li = href :: hrefs
    /\ resolved (base_url self) href (url r).
Proof.
  unfold reference_of_item, resolved.
  destruct (children li) as [| a_tag siblings] eqn:Hli; [discriminate |].
  cbn [index0 bind].
  destruct (text a_tag) as [a_text |] eqn:Htext,
           (tail a_tag) as [a_tail |] eqn:Htail; try discriminate.
  cbn [add_str bind].
  destruct (xpath_a_href li) as [| href hrefs] eqn:Hhref; [discriminate |].
  cbn [index0 bind]. unfold _is_relative_url.
  destruct (urlparse_netloc href) as [netloc | e] eqn:Hnet; [| discriminate].
  cbn [bind].
  intros H. exists a_tag, siblings, a_text, a_tail, href, hrefs.
  assert (Hgoal : description r = a_text ++ a_tail
                  /\ match netloc, base_url self with
                     | [], Some b => urljoin b href = Return (url r)
                     | _, _ => url r = href
                     end).
  { destruct netloc as [| c n]; cbn [length Nat.eqb] in H.
    - destruct (base_url self) as [b |].
      + destruct (urljoin b href) as [u | e]; [| discriminate].
        cbn [bind] in H. now injection H as <-.
      + cbn [bind] in H. now injection H as <-.
    - cbn [bind] in H. now injection H as <-. }
  destruct Hgoal as [Hd Hu].
  split; [reflexivity |]. split; [exact Htext |]. split; [exact Htail |].
  split; [exact Hd |]. split; [reflexivity |]. now exists netloc.
Qed.
End MoreReferences.

Lemma get_references_follows_the_items_witness :
  @ReferenceTabParser.get_references absolute_urllib
    {| ReferenceTabParser.html_tree := Some sample_two_references;
       ReferenceTabParser.base_url := Some (lit "http://www.securityfocus.com/bid/73931/references") |}
  = Return [{| description := lit "CVE request (Henri Salo)";
               url := lit "http://seclists.org/oss-sec/2015/q2/51" |};
            {| description := lit "WassUp Homepage (WordPress)";
               url := lit "http://wordpress.org/extend/plugins/wassup/" |}].
Proof.
  apply (proj1 (@get_references_follows_the_items absolute_urllib
                  {| ReferenceTabParser.html_tree := Some sample_two_references;
                     ReferenceTabParser.base_url :=
                       Some (lit "http://www.securityfocus.com/bid/73931/references") |}
                  sample_two_references
                  (Element (lit "ul") [] None
                     [reference_item "http://seclists.org/oss-sec/2015/q2/51"
                        (Some (lit "CVE request")) (Some (lit " (Henri Salo)"));
                      reference_item "http://wordpress.org/extend/plugins/wassup/"
                        (Some (lit "WassUp Homepage")) (Some (lit " (WordPress)"))]
                     None)
                  [] eq_refl eq_refl)).
  repeat constructor.
Defined.

Lemma reference_of_item_parts_witness :
  exists a_tag siblings a_text a_tail href hrefs,
    children (reference_item "http://wordpress.org/" (Some (lit "WordPress HomePage"))
                             (Some (lit " (WordPress)")))
    = a_tag :: siblings
    /\ text a_tag = Some a_text /\ tail a_tag = Some a_tail
    /\ lit "WordPress HomePage (WordPress)" = a_text ++ a_tail
    /\ @ReferenceTabParser.xpath_a_href
         (reference_item "http://wordpress.org/" (Some (lit "WordPress HomePage"))
                         (Some (lit " (WordPress)")))
       = href :: hrefs
    /\ @resolved absolute_urllib None href (lit "http://wordpress.org/").
Proof.
  exact (@reference_of_item_parts absolute_urllib
           {| ReferenceTabParser.html_tree := None;
              ReferenceTabParser.base_url := None |}
           (reference_item "http://wordpress.org/" (Some (lit "WordPress HomePage"))
                           (Some (lit " (WordPress)")))
           {| description := lit "WordPress HomePage (WordPress)";
              url := lit "http://wordpress.org/" |} eq_refl).
Defined.

(** ** The free text of the three tabs together *)

(** X8. The three free-text tabs read a document in the same way: when
    [get_exploit_description] or [get_solution] returns a text for a
    document, it is the text that [get_discussion] returns for it, and the
    three raise the same exceptions. *)
Theorem free_text_tabs_agree (root : element) :
  let exploit := ExploitTabParser.get_exploit_description
                   {| ExploitTabParser.html_tree := Some root |} in
  let solution := SolutionTabParser.get_solution
                    {| SolutionTabParser.html_tree := Some root |} in
  let discussion := DiscussionTabParser.get_discussion
                      {| DiscussionTabParser.html_tree := Some root |} in
  (forall t, exploit = Return (Some t) -> discussion = Return t)
  /\ (forall t, solution = Return (Some t) -> discussion = Return t)
  /\ (forall e, exploit = Raise e <-> discussion = Raise e)
  /\ (forall e, solution = Raise e <-> discussion = Raise e).
Proof.
  cbv zeta.
  unfold ExploitTabParser.get_exploit_description, SolutionTabParser.get_solution,
    DiscussionTabParser.get_discussion.
  cbn [ExploitTabParser.tree SolutionTabParser.tree DiscussionTabParser.tree
       ExploitTabParser.html_tree SolutionTabParser.html_tree
       DiscussionTabParser.html_tree bind].
  destruct (index0 (xpath_vulnerability_div root)) as [div_tag | e0];
    cbn [bind].
  - assert (H : forall phrase t,
               Return (description_loop phrase (children div_tag) [])
               = Return (Some t) ->
               Return (strip_whitespaces
                         (DiscussionTabParser.discussion_loop
                            (children div_tag) []))
               = @Return str t).
    { intros phrase t [= H]. rewrite discussion_loop_spec.
      rewrite description_loop_some in H by congruence.
      now injection H as <-. }
    split; [apply H | split; [apply H |]].
    split; intros e; split; discriminate.
  - split; [discriminate | split; [discriminate |]].
    split; intros e; split; intros [= <-]; reflexivity.
Qed.

Lemma free_text_tabs_agree_witness :
  ExploitTabParser.get_exploit_description
    {| ExploitTabParser.html_tree := Some sample_two_paragraphs |}
  = Return (Some (lit "The following exploit URL is available:"
                  ++ lit "https://www.example.com/wordpress/"))
  /\ DiscussionTabParser.get_discussion
       {| DiscussionTabParser.html_tree := Some sample_two_paragraphs |}
     = Return (lit "The following exploit URL is available:"
               ++ lit "https://www.example.com/wordpress/").
Proof.
  assert (H : ExploitTabParser.get_exploit_description
                {| ExploitTabParser.html_tree := Some sample_two_paragraphs |}
              = Return (Some (lit "The following exploit URL is available:"
                              ++ lit "https://www.example.com/wordpress/")))
    by (vm_compute; reflexivity).
  split; [exact H |].
  exact (proj1 (free_text_tabs_agree sample_two_paragraphs) _ H).
Defined.

(** ** Writing and reading back *)

Lemma lower_char_idem c : lower_char (lower_char c) = lower_char c.
Proof. destruct c as [[] [] [] [] [] [] [] []]; reflexivity. Qed.

Lemma lower_idem s : lower (lower s) = lower s.
Proof.
  unfold lower. rewrite map_map. apply map_ext. intros c. apply lower_char_idem.
Qed.

Section ReadingBack.
Context {items : Items}.
Variable base_path : str.

Lemma _read_of_file {A} (schema : Schema A) args st text item :
  files st !! Storage._path base_path args = Some (File text) ->
  @loads A schema text = Return (item, []) ->
  Storage._read base_path schema args st = (Return (Some item), st).
Proof.
  intros Hf Hl. unfold Storage._read, bindM, read_file. now rewrite Hf, Hl.
Qed.

Lemma _write_then_read {A} (schema : Schema A) item_key io item args st st' :
  round_trips schema item ->
  Storage._write base_path schema item_key io item args st = (Return tt, st') ->
  Storage._read base_path schema (item_key item :: args) st'
  = (Return (Some item), st').
Proof.
  intros Hrt Hw.
  pose proof (_write_outcome base_path schema item_key io item args st) as Ho.
  cbn zeta in Ho. rewrite Hw in Ho.
  exact (_read_of_file schema _ st' _ item Ho Hrt).
Qed.

(** X9. What was written is read back: when a write returns, the read of
    the same key (and producer) returns the item that was written, without
    changing the state, for every item that the schema gives back from the
    text it wrote for it.  This holds whatever stood in the file before. *)
Theorem write_then_read (io : io_env) (st st' : state) :
  (forall meta, round_trips MetaSchema meta ->
     Storage.write_meta base_path io meta st = (Return tt, st') ->
     Storage.read_meta base_path (meta_key meta) st' = (Return (Some meta), st'))
  /\ (forall vlist, round_trips VulnerabilityListSchema vlist ->
        Storage.write_vulnerabilities base_path io vlist st = (Return tt, st') ->
        Storage.read_vulnerabilities base_path (vulnerabilities_key vlist)
                                     (producer vlist) st'
        = (Return (Some vlist), st'))
  /\ (forall vlist, round_trips VersionListSchema vlist ->
        Storage.write_versions base_path io vlist st = (Return tt, st') ->
        Storage.read_versions base_path (versions_key vlist) st'
        = (Return (Some vlist), st')).
Proof.
  split; [| split]; intros item Hrt Hw.
  - exact (_write_then_read MetaSchema meta_key io item _ st st' Hrt Hw).
  - exact (_write_then_read VulnerabilityListSchema vulnerabilities_key io item
                            _ st st' Hrt Hw).
  - exact (_write_then_read VersionListSchema versions_key io item _ st st' Hrt Hw).
Qed.

(** X10. The producer of a list of vulnerabilities counts without regard to
    case: a producer and its lower-case form name the same file, so reading
    with either is the same read, and two producers with the same
    lower-case form are read from, and written to, the same file. *)
Theorem producer_case_does_not_matter (key p : str) :
  Storage.vuln_file_name (lower p) = Storage.vuln_file_name p
  /\ Storage.read_vulnerabilities base_path key (lower p)
     = Storage.read_vulnerabilities base_path key p
  /\ (forall q, lower q = lower p ->
                Storage.read_vulnerabilities base_path key q
                = Storage.read_vulnerabilities base_path key p)
  /\ (forall v w, producer v = p -> lower (producer w) = lower p ->
                  vulnerabilities_key v = vulnerabilities_key w ->
                  Storage._path base_path
                    [vulnerabilities_key v; Storage.vuln_file_name (producer v)]
                  = Storage._path base_path
                      [vulnerabilities_key w; Storage.vuln_file_name (producer w)]).
Proof.
  assert (Hname : forall q, lower q = lower p ->
                            Storage.vuln_file_name q = Storage.vuln_file_name p).
  { intros q Hq. unfold Storage.vuln_file_name. now rewrite Hq. }
  assert (Hlow : Storage.vuln_file_name (lower p) = Storage.vuln_file_name p)
    by (apply Hname, lower_idem).
  split; [exact Hlow | split; [| split]].
  - unfold Storage.read_vulnerabilities. now rewrite Hlow.
  - intros q Hq. unfold Storage.read_vulnerabilities. now rewrite (Hname q Hq).
  - intros v w Hv Hw Hk.
    rewrite Hk, Hv. now rewrite (Hname (producer w) Hw).
Qed.
End ReadingBack.

(** X11. Which written lists [list_vulnerabilities] looks for: the name
    that [write_vulnerabilities] and [read_vulnerabilities] use for a
    producer matches the pattern exactly when the producer in lower case is
    a word (one or more characters of the class of the pattern), and the
    group is then the producer in lower case.  The name written for any
    other producer, one with a dash in it or the empty one, does not match
    the pattern. *)
Theorem written_name_matches_the_pattern (p w : str) :
  name_format_match (Storage.vuln_file_name p) = Some w
  <-> w = lower p /\ lower p <> [] /\ forallb isword (lower p) = true.
Proof.
  rewrite name_format_match_spec.
  unfold is_vuln_word_json, Storage.vuln_file_name. split.
  - intros [(Hname & Hne & Hw) | (Hname & _)].
    + apply app_inv_head in Hname. apply app_inv_tail in Hname.
      subst w. now repeat split.
    + exfalso. apply app_inv_head in Hname.
      assert (H : (lower p ++ lit ".jso") ++ ["n"%char]
                  = (w ++ lit ".json") ++ [LF])
        by (rewrite <- !app_assoc; exact Hname).
      apply app_inj_tail in H as [_ H]. discriminate H.
  - intros (-> & Hne & Hw). left. now repeat split.
Qed.

Lemma written_name_matches_the_pattern_witness :
  name_format_match (Storage.vuln_file_name (lit "SecurityFocus"))
  = Some (lit "securityfocus")
  /\ name_format_match (Storage.vuln_file_name (lit "wp-plugin")) = None.
Proof.
  split.
  - apply (proj2 (written_name_matches_the_pattern (lit "SecurityFocus")
                    (lit "securityfocus"))).
    split; [reflexivity | split; [discriminate | reflexivity]].
  - destruct (name_format_match (Storage.vuln_file_name (lit "wp-plugin")))
      as [w |] eqn:E; [| reflexivity].
    apply (proj1 (written_name_matches_the_pattern (lit "wp-plugin") w))
      in E as (_ & _ & E).
    vm_compute in E. discriminate E.
Defined.

Lemma write_then_read_witness :
  @Storage.read_vulnerabilities plugins_items (lit "data") (lit "plugins")
    (lit "SecurityFocus")
    (snd (@Storage.write_vulnerabilities plugins_items (lit "data") io_ok
            sample_list (Storage.__init__ ∅)))
  = (Return (Some sample_list),
     snd (@Storage.write_vulnerabilities plugins_items (lit "data") io_ok
            sample_list (Storage.__init__ ∅))).
Proof.
  apply (proj1 (proj2 (@write_then_read plugins_items (lit "data") io_ok
                         (Storage.__init__ ∅) _)) sample_list).
  - reflexivity.
  - vm_compute. reflexivity.
Defined.

(** ** What a call leaves alone *)

Lemma only_new_directories_refl fs : only_new_directories fs fs.
Proof. intros q. now left. Qed.

Lemma only_new_directories_trans fs1 fs2 fs3 :
  only_new_directories fs1 fs2 -> only_new_directories fs2 fs3 ->
  only_new_directories fs1 fs3.
Proof.
  intros H12 H23 q. destruct (H12 q) as [E | [E1 E2]], (H23 q) as [F | [F1 F2]].
  - left. congruence.
  - right. split; congruence.
  - right. split; congruence.
  - congruence.
Qed.

Lemma make_dir_only_new fs d : only_new_directories fs (make_dir fs d).
Proof.
  unfold make_dir. destruct (fs !! d) eqn:E; [apply only_new_directories_refl |].
  intros q. destruct (decide (d = q)) as [<- | Hne].
  - right. split; [exact E | apply lookup_insert_eq].
  - left. now apply lookup_insert_ne.
Qed.

Lemma fold_make_dir_only_new ds fs :
  only_new_directories fs (fold_left make_dir ds fs).
Proof.
  revert fs. induction ds as [| d ds IH]; intros fs;
    [apply only_new_directories_refl |].
  cbn [fold_left]. eapply only_new_directories_trans;
    [apply make_dir_only_new | apply IH].
Qed.

Section Frames.
Context {items : Items}.
Variable base_path : str.

Lemma _prepare_path_files io p st :
  only_new_directories
    (files st) (files (snd (Storage._prepare_path base_path io p st)))
  /\ log (snd (Storage._prepare_path base_path io p st)) = log st.
Proof.
  unfold Storage._prepare_path, makedirs, bindM.
  destruct (bool_decide _);
    [| split; [apply only_new_directories_refl | reflexivity]].
  destruct (makedirs_errno io); cbn;
    split; try reflexivity;
    [apply only_new_directories_refl | apply fold_make_dir_only_new].
Qed.

Lemma open_for_writing_log io truncate path st :
  log (snd (open_for_writing io truncate path st)) = log st.
Proof.
  unfold open_for_writing, set_files.
  now destruct (files st !! path) as [[content |] |], (open_errno io).
Qed.

Lemma write_file_log io path data st :
  log (snd (write_file io path data st)) = log st.
Proof. unfold write_file, set_files, raise. now destruct (write_errno io). Qed.

Lemma prepare_then_write_log io p path truncate data st :
  log (snd (prepare_then_write base_path io p path truncate data st)) = log st.
Proof.
  unfold prepare_then_write, bindM.
  destruct (_prepare_path_files io p st) as [_ Hl].
  destruct (Storage._prepare_path base_path io p st) as [[[] | e] st1];
    cbn [snd] in *; [| exact Hl].
  pose proof (open_for_writing_log io truncate path st1) as Hol.
  destruct (open_for_writing io truncate path st1) as [[[] | e] st2];
    cbn [snd] in *; [| congruence].
  pose proof (write_file_log io path data st2) as Hwl. congruence.
Qed.

Lemma _read_files {A} (schema : Schema A) args st :
  files (snd (Storage._read base_path schema args st)) = files st.
Proof.
  unfold Storage._read, bindM, read_file.
  destruct (files st !! _) as [[text |] |]; try reflexivity.
  destruct (@loads A schema text) as [[data errs] | e].
  - now destruct (truthy errs).
  - now destruct e.
Qed.

Lemma _read_log {A} (schema : Schema A) args st :
  exists records,
    log (snd (Storage._read base_path schema args st)) = log st ++ records
    /\ length records <= 1.
Proof.
  assert (Hnone : forall st' : state,
            log st' = log st ->
            exists records, log st' = log st ++ records /\ length records <= 1).
  { intros st' ->. exists []. split; [now rewrite app_nil_r | cbn; lia]. }
  unfold Storage._read, bindM, read_file.
  destruct (files st !! _) as [[text |] |]; try now apply Hnone.
  destruct (@loads A schema text) as [[data errs] | e].
  - destruct (truthy errs); now apply Hnone.
  - destruct e; try now apply Hnone.
    eexists [_]. cbn. split; [reflexivity | lia].
Qed.

Lemma forget_state {A} (m : M A) st : snd (Storage.forget m st) = snd (m st).
Proof. unfold Storage.forget, bindM. now destruct (m st) as [[v | e] st']. Qed.

(** X12. What a call never does.  No call forgets a path that the instance
    knows, and the only path that a call can add to [known] is the one it
    prepares.  A read changes no entry of the disk and logs at most one
    record.  A write or an append logs nothing. *)
Theorem calls_keep_known_and_log (c : Storage.call) (io : io_env) (st : state) :
  let st' := snd (Storage.perform base_path c io st) in
  known st ⊆ known st'
  /\ (forall p, p ∈ known st' -> p ∈ known st \/ Storage.target c = Some p)
  /\ (Storage.target c = None ->
      files st' = files st
      /\ exists records, log st' = log st ++ records /\ length records <= 1)
  /\ (Storage.target c <> None -> log st' = log st).
Proof.
  cbv zeta.
  assert (Hknown : known st ⊆ known (snd (Storage.perform base_path c io st))
                   /\ forall p, p ∈ known (snd (Storage.perform base_path c io st))
                                -> p ∈ known st \/ Storage.target c = Some p).
  { pose proof (perform_shape base_path c io st) as Hs.
    destruct (Storage.target c) as [t |].
    - destruct Hs as [Hk _]. rewrite Hk.
      destruct (_prepare_path_effect base_path io t st) as [Hin Hout].
      destruct (decide (t ∈ known st)) as [Ht | Ht].
      + cbn zeta in Hin. rewrite (Hin Ht). split; [reflexivity | now left].
      + destruct (Hout Ht) as [_ ->].
        destruct (makedirs_errno io); [split; [reflexivity | now left] |].
        split.
        * intros x Hx. apply elem_of_union. now left.
        * intros p [Hp | Hp%elem_of_singleton]%elem_of_union;
            [now left | right; now subst].
    - destruct Hs as [-> _]. split; [reflexivity | now left]. }
  destruct Hknown as [Hsub Honly].
  split; [exact Hsub | split; [exact Honly | split]].
  - destruct c as [meta | vlist | vlist | relative content | key | key prod | key];
      cbn [Storage.target Storage.perform]; try discriminate; intros _;
      rewrite forget_state; split;
      first [ apply _read_files | apply _read_log ].
  - destruct c as [meta | vlist | vlist | relative content | key | key prod | key];
      cbn [Storage.target Storage.perform]; try congruence; intros _.
    + unfold Storage.write_meta, Storage._write.
      destruct (serialize meta) as [data errs].
      apply (prepare_then_write_log io (meta_key meta) _ true data st).
    + unfold Storage.write_vulnerabilities, Storage._write.
      destruct (serialize vlist) as [data errs].
      apply (prepare_then_write_log io (vulnerabilities_key vlist) _ true data st).
    + unfold Storage.write_versions, Storage._write.
      destruct (serialize vlist) as [data errs].
      apply (prepare_then_write_log io (versions_key vlist) _ true data st).
    + apply (prepare_then_write_log io (dirname relative) _ false _ st).
Qed.
End Frames.

(** ** Files of lines *)

Lemma is_line_no_lf l :
  is_line l = true -> forallb (fun c => negb (Ascii.eqb LF c)) l = true.
Proof.
  unfold is_line. induction l as [| c l IH]; [reflexivity |].
  cbn [forallb]. intros [Hc Hl]%andb_true_iff.
  apply andb_true_iff in Hc as [Hc _].
  rewrite (IH Hl), andb_true_r. now rewrite Ascii.eqb_sym.
Qed.

Lemma is_line_app l1 l2 : is_line (l1 ++ l2) = is_line l1 && is_line l2.
Proof. unfold is_line. apply forallb_app. Qed.

Lemma universal_newlines_line l rest :
  is_line l = true ->
  universal_newlines (l ++ LF :: rest) = l ++ LF :: universal_newlines rest.
Proof.
  unfold is_line. induction l as [| c l IH]; [reflexivity |].
  cbn [forallb app universal_newlines]. intros [Hc Hl]%andb_true_iff.
  apply andb_true_iff in Hc as [_ Hc]. apply negb_true_iff in Hc.
  now rewrite Hc, (IH Hl).
Qed.

Lemma universal_newlines_text ls :
  forallb is_line ls = true ->
  universal_newlines (text_of_lines ls) = text_of_lines ls.
Proof.
  unfold text_of_lines. induction ls as [| l ls IH]; [reflexivity |].
  cbn [forallb map concat]. intros [Hl Hls]%andb_true_iff.
  rewrite <- app_assoc. cbn [app].
  now rewrite (universal_newlines_line l _ Hl), (IH Hls).
Qed.

Lemma readlines_line l rest :
  is_line l = true ->
  readlines (l ++ LF :: rest) = (l ++ [LF]) :: readlines rest.
Proof.
  unfold is_line. induction l as [| c l IH]; [reflexivity |].
  cbn [forallb app readlines]. intros [Hc Hl]%andb_true_iff.
  apply andb_true_iff in Hc as [Hc _]. apply negb_true_iff in Hc.
  now rewrite Hc, (IH Hl).
Qed.

Lemma readlines_text ls :
  forallb is_line ls = true ->
  readlines (text_of_lines ls) = map (fun l => l ++ [LF]) ls.
Proof.
  unfold text_of_lines. induction ls as [| l ls IH]; [reflexivity |].
  cbn [forallb map concat]. intros [Hl Hls]%andb_true_iff.
  rewrite <- app_assoc. cbn [app].
  now rewrite (readlines_line l _ Hl), (IH Hls).
Qed.

Section StripChars.
Variable p : ascii -> bool.

Lemma rstrip_by_none l :
  forallb (fun c => negb (p c)) l = true -> rstrip_by p l = l.
Proof.
  induction l as [| c l IH]; [reflexivity |].
  cbn [forallb rstrip_by]. intros [Hc Hl]%andb_true_iff.
  rewrite (IH Hl). apply negb_true_iff in Hc.
  destruct l; [now rewrite Hc | reflexivity].
Qed.

Lemma rstrip_by_last l c :
  forallb (fun c => negb (p c)) l = true -> p c = true ->
  rstrip_by p (l ++ [c]) = l.
Proof.
  intros Hl Hc. induction l as [| a l IH].
  - cbn. now rewrite Hc.
  - cbn [forallb] in Hl. apply andb_true_iff in Hl as [Ha Hl].
    cbn [app rstrip_by]. rewrite (IH Hl). apply negb_true_iff in Ha.
    destruct l; [now rewrite Ha | reflexivity].
Qed.

Lemma lstrip_by_none l :
  forallb (fun c => negb (p c)) l = true -> lstrip_by p l = l.
Proof.
  destruct l as [| c l]; [reflexivity |].
  cbn [forallb lstrip_by]. intros [Hc _]%andb_true_iff.
  apply negb_true_iff in Hc. now rewrite Hc.
Qed.

Lemma strip_by_line l c :
  forallb (fun c => negb (p c)) l = true -> p c = true ->
  strip_by p (l ++ [c]) = l /\ strip_by p l = l.
Proof.
  intros Hl Hc. unfold strip_by. split.
  - destruct l as [| a l].
    + cbn. rewrite Hc. reflexivity.
    + cbn [forallb] in Hl. apply andb_true_iff in Hl as [Ha Hl'].
      cbn [app lstrip_by]. apply negb_true_iff in Ha. rewrite Ha.
      apply (rstrip_by_last (a :: l) c); [| exact Hc].
      cbn [forallb]. now rewrite Ha, Hl'.
  - rewrite (lstrip_by_none l Hl). now apply rstrip_by_none.
Qed.

Lemma forallb_lstrip_by (q : ascii -> bool) l :
  forallb q l = true -> forallb q (lstrip_by p l) = true.
Proof.
  induction l as [| c l IH]; [reflexivity |].
  intros H. cbn [lstrip_by]. destruct (p c); [| exact H].
  apply IH. cbn [forallb] in H. now apply andb_true_iff in H as [_ H].
Qed.

Lemma forallb_rstrip_by (q : ascii -> bool) l :
  forallb q l = true -> forallb q (rstrip_by p l) = true.
Proof.
  induction l as [| c l IH]; [reflexivity |].
  cbn [forallb rstrip_by]. intros [Hc Hl]%andb_true_iff. specialize (IH Hl).
  destruct (rstrip_by p l).
  - destruct (p c); cbn [forallb]; [reflexivity | now rewrite Hc].
  - cbn [forallb] in *. now rewrite Hc, IH.
Qed.
End StripChars.

Lemma strip_lf_line l :
  is_line l = true ->
  strip_by (Ascii.eqb LF) (l ++ [LF]) = l /\ strip_by (Ascii.eqb LF) l = l.
Proof.
  intros Hl. apply strip_by_line; [now apply is_line_no_lf | apply Ascii.eqb_refl].
Qed.

Lemma text_of_lines_app ls l :
  text_of_lines (ls ++ [l]) = text_of_lines ls ++ l ++ [LF].
Proof.
  unfold text_of_lines. rewrite map_app, concat_app. cbn [map concat].
  now rewrite app_nil_r.
Qed.

Section Lines.
Context {items : Items}.
Variable base_path : str.

Lemma read_lines_of_lines relative st ls :
  files st !! Storage._path base_path [relative]
  = Some (File (text_of_lines ls)) ->
  forallb is_line ls = true ->
  Storage.read_lines base_path relative st = ((ls, None), st).
Proof.
  intros Hf Hls. unfold Storage.read_lines, read_file. rewrite Hf.
  rewrite (universal_newlines_text ls Hls), (readlines_text ls Hls).
  rewrite map_map. do 2 f_equal. clear Hf.
  induction ls as [| l ls IH]; [reflexivity |].
  cbn [forallb] in Hls. apply andb_true_iff in Hls as [Hl Hls].
  cbn [map]. rewrite (proj1 (strip_lf_line l Hl)). f_equal.
  now apply IH.
Qed.
End Lines.






Section LinesOfFiles.
Context {items : Items}.
Variable base_path : str.

Lemma open_for_appending io path st st' :
  open_for_writing io false path st = (Return tt, st') ->
  files st' !! path
  = Some (File (match files st !! path with
                | Some (File content) => content
                | _ => []
                end))
  /\ files st !! path <> Some Dir.
Proof.
  unfold open_for_writing, set_files.
  destruct (files st !! path) as [[content |] |], (open_errno io);
    try discriminate; intros [= <-]; cbn; now rewrite lookup_insert_eq.
Qed.

(** X13. Appending adds one line: when a file holds lines (or is not
    there) and [append] returns, the file holds the lines and, behind them,
    the content without the line feeds at its ends; [read_lines] then gives
    exactly these lines, in their order, when none of them has a line feed
    or a carriage return in it. *)
Theorem append_then_read_lines (io : io_env) (relative content : str)
    (st st' : state) (ls : list str) :
  let path := Storage._path base_path [relative] in
  let line := strip_by (Ascii.eqb LF) content in
  holds_lines (files st) path ls ->
  Storage.append base_path io relative content st = (Return tt, st') ->
  holds_lines (files st') path (ls ++ [line])
  /\ (forallb is_line (ls ++ [line]) = true ->
      Storage.read_lines base_path relative st' = ((ls ++ [line], None), st')).
Proof.
  intros path line Hholds Happend.
  assert (Hfile : files st' !! path = Some (File (text_of_lines (ls ++ [line])))).
  { unfold Storage.append, bindM in Happend. fold path in Happend.
    destruct (_prepare_path_files base_path io (dirname relative) st) as [Hnew _].
    destruct (Storage._prepare_path base_path io (dirname relative) st)
      as [[[] | e] st1]; [| discriminate].
    cbn [snd] in Hnew.
    destruct (open_for_writing io false path st1) as [[[] | e] st2] eqn:Hopen;
      [| discriminate].
    apply open_for_appending in Hopen as [Hopen Hnodir].
    pose proof (write_file_files io path (line ++ [LF]) st2 _ st' _ Hopen Happend)
      as Hw. cbv beta iota in Hw. rewrite Hw, text_of_lines_app. do 2 f_equal.
    destruct (Hnew path) as [E | [E1 E2]]; [| congruence].
    rewrite E. destruct Hholds as [-> | [-> ->]]; reflexivity. }
  split; [now left |].
  intros Hlines. now apply read_lines_of_lines.
Qed.

End LinesOfFiles.

Lemma append_then_read_lines_witness :
  let st := @Storage.run sample_items (lit "data") two_appends
              (Storage.__init__ ∅) in
  holds_lines (files st) (lit "data/logs/run.log") [lit "first"; lit "second"]
  /\ Storage.read_lines (lit "data") (lit "logs/run.log") st
     = (([lit "first"; lit "second"], None), st).
Proof.
  cbv zeta.
  destruct (append_then_read_lines (lit "data") io_ok
              (lit "logs/run.log") (lit "second")
              (snd (Storage.append (lit "data") io_ok
                      (lit "logs/run.log") (lit "first" ++ [LF; LF])
                      (Storage.__init__ ∅)))
              (@Storage.run sample_items (lit "data") two_appends
                 (Storage.__init__ ∅))
              [lit "first"]) as [H1 H2].
  - left. vm_compute. reflexivity.
  - vm_compute. reflexivity.
  - split; [exact H1 | apply H2; reflexivity].
Defined.

(** ** Directories *)


Section Directories.
Variable base_path : str.

(** X15. [list_directories] changes nothing.  When [scandir] raises
    [FileNotFoundError] it returns the empty set; any other exception of
    [scandir] (for a file, [NotADirectoryError]) is not caught and ends the
    call.  When [scandir] gives the entries, it returns the set of the
    names of those that are directories: each such name once, and no name
    of a file. *)
Theorem list_directories_gives_the_subdirectories (path : str) (st : state) :
  let directory := Storage._path base_path [path] in
  let scanned := fst (scandir directory st) in
  let run := Storage.list_directories base_path path st in
  snd run = st
  /\ (scanned = Raise FileNotFoundError -> fst run = Return ∅)
  /\ (forall e, scanned = Raise e -> e <> FileNotFoundError ->
                fst run = Raise e)
  /\ (forall entries, scanned = Return entries ->
        exists names,
          fst run = Return names
          /\ forall n, n ∈ names <->
                       exists entry, In entry entries
                                     /\ is_dir entry = true
                                     /\ name entry = n).
Proof.
  cbv zeta. unfold Storage.list_directories.
  assert (Hst : snd (scandir (Storage._path base_path [path]) st) = st).
  { unfold scandir. now destruct (files st !! _) as [[text |] |]. }
  destruct (scandir (Storage._path base_path [path]) st)
    as [[entries | e] st'].
  - cbn [fst snd] in *. split; [exact Hst |].
    split; [discriminate | split; [discriminate |]].
    intros entries' [= <-]. eexists. split; [reflexivity |]. intros n.
    rewrite elem_of_list_to_set, list_elem_of_In, in_map_iff. split.
    + intros (entry & Hn & Hin). apply filter_In in Hin as [Hin Hdir].
      now exists entry.
    + intros (entry & Hin & Hdir & Hn). exists entry.
      split; [exact Hn |]. now apply filter_In.
  - cbn [fst snd] in Hst.
    destruct e; cbn [fst snd];
      (split; [exact Hst |]);
      (split; [first [intros _; reflexivity | discriminate] |]);
      (split; [| discriminate]);
      intros e' [= <-] H; first [reflexivity | now contradiction H].
Qed.
End Directories.

(** ** A written list is listed *)






Section Listing.
Context {items : Items}.
Variable base_path : str.


End Listing.

